(** * rekall.tuner.coordinate_descent: CoordinateDescentTuner

    A shallow embedding of [CoordinateDescentTuner.line_search] and
    [CoordinateDescentTuner.tune_impl] (rekallpy/rekall/tuner/coordinate_descent.py)
    and the properties of the two methods.

    Modelling conventions.
    - Python numbers (ranges, step fractions, parameter values, scores) are
      exact rationals [Q]; comparisons are the exact ones.  Rounding and NaN
      are outside the model.
    - A Python dict used as a map is a [gmap string _].
    - The tuner object is split into its immutable part ([tuner]) and the part
      its methods mutate ([state]).  The configuration dict that [tune_impl]
      creates and hands to [line_search] is one shared object: it lives in the
      state, so every assignment [config[c] = v] is seen by the caller.
    - A method is a function [state -> outcome _]: it returns, raises, or (for
      the one unbounded loop) runs out of fuel, and in each case hands back the
      state reached. *)

From Stdlib Require Import QArith Lqa.
From stdpp Require Import gmap strings list sorting.

Local Open Scope string_scope.
Local Open Scope nat_scope.

(** ** Python values *)

(** A parameter value held by a configuration: a number for a continuous
    parameter, any comparable object (here: a string) for a discrete one. *)
Inductive value : Type :=
  | Num (q : Q)
  | Str (s : string).

(** Python's [a < b] on numbers. *)
Definition Qltb (a b : Q) : bool := negb (Qle_bool b a).

(** Python's [a == b] on parameter values. *)
Definition value_eqb (a b : value) : bool :=
  match a, b with
  | Num x, Num y => Qeq_bool x y
  | Str x, Str y => String.eqb x y
  | _, _ => false
  end.

(** A [str] object: its identity and its characters.  [is] compares
    identities, [==] would compare characters. *)
Record pystr : Type := { addr : nat; chars : string }.

Definition py_is (a b : pystr) : bool := Nat.eqb (addr a) (addr b).

(** The two string constants of [tune_impl]. *)
Definition lit_average : pystr := {| addr := 1; chars := "average" |}.
Definition lit_random : pystr := {| addr := 2; chars := "random" |}.

(** An object is what its identity says: whatever lives at the identity of a
    constant has the constant's characters. *)
Definition str_ok (s : pystr) : Prop :=
  (addr s = addr lit_average → chars s = chars lit_average) ∧
  (addr s = addr lit_random → chars s = chars lit_random).

(** One entry of the search space, as far as the code inspects it:
    [isinstance(param, list)], [isinstance(param, dict)], ['range' in param]
    and the pair [param['range']]. *)
Inductive param : Type :=
  | PList (choices : list value)
  | PDict (range : option (Q * Q))
  | POther.

(** The exceptions the two methods can raise. *)
Inductive exn : Type :=
  | KeyError (key : string)
  | NameError (name : string)
  | IndexError
  | TypeError.

(** What a call hands back through [return]. *)
Inductive pyret : Type :=
  | RNone
  | RResult (cfg : gmap string value) (score : Q).

(** The keyword arguments of [tune_impl], each present or absent. *)
Record kwargs : Type := {
  kw_alpha : option Q;
  kw_decay_rate : option Q;
  kw_init_method : option pystr
}.

(** ** The tuner and its mutable state *)

Record tuner : Type := {
  search_space : gmap string param;
  eval_fn : gmap string value → Q;
  maximize : bool;
  budget : nat
}.

(** The arguments of the [log_msg] calls of [tune_impl], one constructor per
    format string. *)
Inductive msg : Type :=
  | MsgRound (rounds cost : nat)
  | MsgCoordinate (coordinate : string) (cost : nat)
  | MsgOldNew (old new : value)
  | MsgNewAlpha (alpha : Q) (cost : nat).

Record state : Type := {
  config : gmap string value;
  cost : nat;
  best : option (gmap string value * Q);
  log : list msg;
  stdout : list string
}.

Definition with_config (f : gmap string value → gmap string value) (s : state) : state :=
  {| config := f (config s); cost := cost s; best := best s;
     log := log s; stdout := stdout s |}.

Inductive outcome (A : Type) : Type :=
  | Ret (a : A) (s : state)
  | Raise (e : exn) (s : state)
  | OutOfFuel (s : state).
Arguments Ret {A} a s.
Arguments Raise {A} e s.
Arguments OutOfFuel {A} s.

Definition final_state {A} (o : outcome A) : state :=
  match o with
  | Ret _ s | Raise _ s | OutOfFuel s => s
  end.

Definition M (A : Type) : Type := state → outcome A.

Definition ret {A} (a : A) : M A := λ s, Ret a s.
Definition raise {A} (e : exn) : M A := λ s, Raise e s.
Definition bind {A B} (m : M A) (k : A → M B) : M B :=
  λ s, match m s with
       | Ret a s' => k a s'
       | Raise e s' => Raise e s'
       | OutOfFuel s' => OutOfFuel s'
       end.

Notation "'let*' x := m 'in' k" := (bind m (λ x, k))
  (at level 10, x pattern, m at level 100, k at level 200).

(** [config[c]] *)
Definition get_item (c : string) : M value :=
  λ s, match config s !! c with
       | Some v => Ret v s
       | None => Raise (KeyError c) s
       end.

(** [config[c] = v] *)
Definition set_item (c : string) (v : value) : M unit :=
  λ s, Ret tt (with_config (insert c v) s).

(** [self.cost] *)
Definition get_cost : M nat := λ s, Ret (cost s) s.

(** [print(line)] *)
Definition print (line : string) : M unit :=
  λ s, Ret tt {| config := config s; cost := cost s; best := best s;
                 log := log s; stdout := stdout s ++ [line] |}.

Section Tuner.
Variable T : tuner.

(** [score < cur_score] when maximizing, [score > cur_score] otherwise:
    the test [line_search] uses three times. *)
Definition worse (score cur_score : Q) : bool :=
  (maximize T && Qltb score cur_score) ||
  (negb (maximize T) && Qltb cur_score score).

(** [score > max_score] when maximizing, [score < max_score] otherwise:
    the test of the discrete sweep. *)
Definition better (score max_score : Q) : bool :=
  (maximize T && Qltb max_score score) ||
  (negb (maximize T) && Qltb score max_score).

(** Modelled from the spec: [Tuner.evaluate_config] of the base class
    (the base class is not among the sources).  It invokes
    the scoring callback on the configuration, increments [cost] by exactly
    one, replaces the tracked best when the new score improves on it under
    the [maximize] direction, and returns the raw score. *)
Definition evaluate_config : M Q :=
  λ s, let score := eval_fn T (config s) in
       let improves :=
         match best s with
         | None => true
         | Some (_, b) => better score b
         end in
       Ret score
         {| config := config s; cost := S (cost s);
            best := if improves then Some (config s, score) else best s;
            log := log s; stdout := stdout s |}.

(** Modelled from the spec: [Tuner.log_msg] of the base class, a side
    channel for progress reports that never affects control flow. *)
Definition log_msg (m : msg) : M unit :=
  λ s, Ret tt {| config := config s; cost := cost s; best := best s;
                 log := log s ++ [m]; stdout := stdout s |}.

(** [self.search_space[c]] *)
Definition get_param (c : string) : M param :=
  λ s, match search_space T !! c with
       | Some p => Ret p s
       | None => Raise (KeyError c) s
       end.

(** [self.search_space[c]['range']], unpacked into [(minval, maxval)]. *)
Definition get_range (c : string) : M (Q * Q) :=
  let* p := get_param c in
  match p with
  | PDict (Some r) => ret r
  | PDict None => raise (KeyError "range")
  | PList _ | POther => raise TypeError
  end.

(** *** line_search *)

Section LineSearch.
Variables (cur_param : string) (minval maxval cur_score : Q).

(** The loop [while local_cost < budget] of [line_search].  [n] is
    [budget - local_cost], the number of iterations the guard still
    allows: the guard fails exactly when [n] is 0 and every iteration
    adds one to [local_cost]. *)
Fixpoint extend (n : nat) (delta cur_val prev_score : Q) : M (Q * Q) :=
  match n with
  | O => ret (cur_val, prev_score)
  | S n' =>
    if Qltb maxval (cur_val + delta) || Qltb (cur_val + delta) minval
    then ret (cur_val, prev_score)
    else
      let cur_val := (cur_val + delta)%Q in
      let* _ := set_item cur_param (Num cur_val) in
      let* score := evaluate_config in
      if worse score cur_score
      then ret ((cur_val - delta)%Q, prev_score)
      else extend n' delta cur_val score
  end.
End LineSearch.

Definition line_search (cur_param : string) (epsilon : Q) (budget : nat)
    (cur_score : Q) : M (Q * Q) :=
  let* (minval, maxval) := get_range cur_param in
  let Y := (maxval - minval)%Q in
  let delta := (epsilon * Y)%Q in
  let* orig := get_item cur_param in
  match orig with
  | Str _ => raise TypeError
  | Num orig_val =>
    if Qltb maxval (orig_val + delta) && Qltb (orig_val - delta) minval
    then ret (orig_val, cur_score)
    else
      let cur_val := (orig_val + delta)%Q in
      let* _ := set_item cur_param (Num cur_val) in
      let* score := evaluate_config in
      let local_cost := 1 in
      if worse score cur_score then
        let delta := (-1 * delta)%Q in
        let cur_val := (orig_val + delta)%Q in
        let* _ := set_item cur_param (Num cur_val) in
        let* score := evaluate_config in
        let local_cost := 2 in
        if worse score cur_score
        then ret (orig_val, cur_score)
        else extend cur_param minval maxval cur_score
                    (budget - local_cost) delta cur_val score
      else extend cur_param minval maxval cur_score
                  (budget - local_cost) delta cur_val score
  end.

(** *** tune_impl *)

(** Modelled from the spec: [RandomTuner.generate_configs(search_space, n)]
    (not among the sources) returns [n] sampled configurations.  The sample
    is random, so the function is a parameter of the development. *)
Variable generate_configs : gmap string param → nat → list (gmap string value).

(** [sorted(list(self.search_space.keys()))] *)
Definition coordinates : list string :=
  merge_sort String.le (elements (dom (search_space T))).

(** The loop of the ['average'] branch that fills the initial
    configuration.  In [config[k] = param[0]] the right-hand side is
    evaluated first (IndexError on an empty list), then the name [k], which
    is bound nowhere. *)
Fixpoint init_average (coords : list string) : M unit :=
  match coords with
  | [] => ret tt
  | coordinate :: coords' =>
    let* param := get_param coordinate in
    let* _ :=
      match param with
      | PDict (Some (minval, maxval)) =>
          set_item coordinate (Num ((maxval + minval) / 2)%Q)
      | PDict None => ret tt
      | PList [] => raise IndexError
      | PList (_ :: _) => raise (NameError "k")
      | POther => ret tt
      end in
    init_average coords'
  end.

(** The loop [for choice in param] of the discrete branch. *)
Fixpoint try_choices (coordinate : string) (orig_val : value)
    (choices : list value) (best_choice : value) (max_score : Q)
    : M (value * Q) :=
  match choices with
  | [] => ret (best_choice, max_score)
  | choice :: choices' =>
    if value_eqb choice orig_val
    then try_choices coordinate orig_val choices' best_choice max_score
    else
      let* _ := set_item coordinate choice in
      let* score := evaluate_config in
      if better score max_score
      then try_choices coordinate orig_val choices' choice score
      else try_choices coordinate orig_val choices' best_choice max_score
  end.

(** The body of [for coordinate in coordinates], after the cost check.
    It is run on the pair [(changed, cur_score)] and gives the new pair. *)
Definition coordinate_step (alpha : Q) (coordinate : string)
    (changed : bool) (cur_score : Q) : M (bool * Q) :=
  let* c := get_cost in
  let* _ := log_msg (MsgCoordinate coordinate c) in
  let* orig_val := get_item coordinate in
  let* param := get_param coordinate in
  match param with
  | PList choices =>
    let* (best_choice, max_score) :=
      try_choices coordinate orig_val choices orig_val cur_score in
    let* _ := log_msg (MsgOldNew orig_val best_choice) in
    let changed := if negb (value_eqb best_choice orig_val) then true else changed in
    let* _ := set_item coordinate best_choice in
    ret (changed, max_score)
  | PDict (Some _) =>
    let* (best_choice, max_score) := line_search coordinate alpha 10 cur_score in
    let* _ := log_msg (MsgOldNew orig_val (Num best_choice)) in
    let changed :=
      if negb (value_eqb (Num best_choice) orig_val) then true else changed in
    let* _ := set_item coordinate (Num best_choice) in
    ret (changed, max_score)
  | PDict None => ret (changed, cur_score)
  | POther => ret (changed, cur_score)
  end.

(** [for coordinate in coordinates: if self.cost > self.budget: break ...] *)
Fixpoint sweep (alpha : Q) (coords : list string) (changed : bool)
    (cur_score : Q) : M (bool * Q) :=
  match coords with
  | [] => ret (changed, cur_score)
  | coordinate :: coords' =>
    let* c := get_cost in
    if (budget T <? c)%nat then ret (changed, cur_score)
    else
      let* (changed, cur_score) := coordinate_step alpha coordinate changed cur_score in
      sweep alpha coords' changed cur_score
  end.

(** [while self.cost < self.budget].  Nothing bounds the number of rounds
    (a round may cost nothing and leave [alpha] as it is), so the loop takes
    fuel: one unit per round. *)
Fixpoint rounds_loop (fuel : nat) (decay_rate alpha cur_score : Q)
    (rounds : nat) : M pyret :=
  match fuel with
  | O => λ s, OutOfFuel s
  | S fuel' =>
    let* c := get_cost in
    if (c <? budget T)%nat then
      let* _ := log_msg (MsgRound rounds c) in
      let* (changed, cur_score) := sweep alpha coordinates false cur_score in
      if negb changed then
        let alpha := (alpha * decay_rate)%Q in
        let* c := get_cost in
        let* _ := log_msg (MsgNewAlpha alpha c) in
        if Qltb alpha (1 # 1000000)
        then ret RNone
        else rounds_loop fuel' decay_rate alpha cur_score (S rounds)
      else rounds_loop fuel' decay_rate alpha cur_score (S rounds)
    else ret RNone
  end.

(** From [score = self.evaluate_config(config)] to the end of the method. *)
Definition search (fuel : nat) (decay_rate alpha : Q) : M pyret :=
  let* score := evaluate_config in
  let cur_score := score in
  let rounds := 0 in
  rounds_loop fuel decay_rate alpha cur_score rounds.

Definition tune_impl (fuel : nat) (kw : kwargs) : M pyret :=
  match kw_alpha kw, kw_decay_rate kw with
  | Some alpha, Some decay_rate =>
    let init_method :=
      match kw_init_method kw with
      | Some m => m
      | None => lit_average
      end in
    if py_is init_method lit_average then
      let* _ := (λ s, Ret tt (with_config (λ _, ∅) s)) in
      let* _ := init_average coordinates in
      search fuel decay_rate alpha
    else if py_is init_method lit_random then
      match generate_configs (search_space T) 1 !! 0 with
      | Some cfg =>
        let* _ := (λ s, Ret tt (with_config (λ _, cfg) s)) in
        search fuel decay_rate alpha
      | None => raise IndexError
      end
    else
      let* _ := print (chars init_method ++ " is invalid init_method!") in
      ret RNone
  | _, _ =>
    let* _ := print "Coordinate descent requires alpha and decay_rate!" in
    ret RNone
  end.

(** Modelled from the spec: the state the base entry point [tune] sets up
    (cost 0, no best yet) before it delegates to [tune_impl]. *)
Definition fresh : state :=
  {| config := ∅; cost := 0; best := None; log := []; stdout := [] |}.

(** Modelled from the spec: [Tuner.tune], as far as it drives [tune_impl]. *)
Definition tune (fuel : nat) (kw : kwargs) : outcome pyret :=
  tune_impl fuel kw fresh.
End Tuner.

(** ** Properties the theorems are stated with *)

(** [score] is no worse than [cur_score] under the optimization direction. *)
Definition no_worse (T : tuner) (score cur_score : Q) : Prop :=
  if maximize T then (cur_score <= score)%Q else (score <= cur_score)%Q.

(** Every entry of the search space is a [{'range': [min, max]}] dict. *)
Definition is_range (p : param) : bool :=
  match p with
  | PDict (Some _) => true
  | _ => false
  end.

Definition continuous_only (T : tuner) : bool :=
  forallb is_range (map_to_list (search_space T)).*2.

(** The entry is neither a list nor a dict carrying ['range']. *)
Definition unrecognized (p : param) : bool :=
  match p with
  | PList _ | PDict (Some _) => false
  | PDict None | POther => true
  end.

(** The call ended by raising: the only way an error reaches the caller of a
    method whose every [return] hands back [None]. *)
Definition raised {A} (o : outcome A) : bool :=
  match o with
  | Raise _ _ => true
  | _ => false
  end.

(** The value the call returned, if it returned. *)
Definition returned {A} (o : outcome A) : option A :=
  match o with
  | Ret a _ => Some a
  | _ => None
  end.

(** The number of [evaluate_config] calls between two states. *)
Definition evaluations (s s' : state) : nat := cost s' - cost s.

(** The options select the midpoint initializer: [init_method] is absent or
    is the constant ['average'] itself. *)
Definition selects_average (kw : kwargs) : bool :=
  match kw_init_method kw with
  | None => true
  | Some m => py_is m lit_average
  end.

(** The state after [print(line)]. *)
Definition printed (line : string) (s : state) : state :=
  {| config := config s; cost := cost s; best := best s;
     log := log s; stdout := stdout s ++ [line] |}.

(** The state after [self.log_msg(...)]. *)
Definition logged (m : msg) (s : state) : state :=
  {| config := config s; cost := cost s; best := best s;
     log := log s ++ [m]; stdout := stdout s |}.

(** [s'] differs from [s] by at most [n] evaluations and by the value of the
    coordinate [c]. *)
Definition searched (c : string) (n : nat) (s s' : state) : Prop :=
  cost s ≤ cost s' ∧ cost s' ≤ cost s + n ∧
  (∀ k, k ≠ c → config s' !! k = config s !! k) ∧
  log s' = log s ∧ stdout s' = stdout s.

(** The cost a log line reports, 0 for the lines that report none. *)
Definition msg_cost (m : msg) : nat :=
  match m with
  | MsgRound _ k | MsgCoordinate _ k | MsgNewAlpha _ k => k
  | MsgOldNew _ _ => 0
  end.

(** The invariant of a run over a continuous search space: the cost, and
    every cost logged so far, is at most [bound]. *)
Definition within (bound : nat) (s : state) : Prop :=
  cost s ≤ bound ∧ Forall (λ m, msg_cost m ≤ bound) (log s).

(** Every coordinate the log reports as started was started at a cost of at
    most [bound]. *)
Definition started_within (bound : nat) (s : state) : Prop :=
  Forall (λ m, match m with MsgCoordinate _ k => k ≤ bound | _ => True end) (log s).

(** ** Concrete tuners and inputs *)

Definition const_score (q : Q) : gmap string value → Q := λ _, q.

(** A score with its only peak at [x = 5]: [-(x - 5)^2]. *)
Definition peak_score : gmap string value → Q :=
  λ cfg, match cfg !! "x" with
         | Some (Num x) => (- ((x - 5) * (x - 5)))%Q
         | _ => 0%Q
         end.

Definition no_random : gmap string param → nat → list (gmap string value) :=
  λ _ _, [].

Definition space_x : gmap string param := {[ "x" := PDict (Some (0, 10)%Q) ]}.

Definition space_ab : gmap string param :=
  {[ "a" := PDict (Some (0, 10)%Q); "b" := PDict (Some (0, 10)%Q) ]}.

Definition T_flat : tuner :=
  {| search_space := space_x; eval_fn := const_score 0;
     maximize := true; budget := 5 |}.

Definition T_peak : tuner :=
  {| search_space := space_x; eval_fn := peak_score;
     maximize := true; budget := 5 |}.

Definition T_ab : tuner :=
  {| search_space := space_ab; eval_fn := const_score 0;
     maximize := true; budget := 2 |}.

Definition T_mixed : tuner :=
  {| search_space := {[ "mode" := PList [Str "fast"; Str "slow"];
                        "x" := PDict (Some (0, 10)%Q) ]};
     eval_fn := const_score 0; maximize := true; budget := 5 |}.

Definition T_odd : tuner :=
  {| search_space := {[ "x" := POther ]}; eval_fn := const_score 0;
     maximize := true; budget := 5 |}.

(** The state in which the configuration is [{'x': q}] and nothing has been
    evaluated yet. *)
Definition at_x (q : Q) : state :=
  {| config := {[ "x" := Num q ]}; cost := 0; best := None;
     log := []; stdout := [] |}.

Definition kw_half : kwargs :=
  {| kw_alpha := Some (1 # 2); kw_decay_rate := Some (1 # 2);
     kw_init_method := None |}.

Definition kw_no_alpha : kwargs :=
  {| kw_alpha := None; kw_decay_rate := Some (1 # 2); kw_init_method := None |}.

Definition kw_grid : kwargs :=
  {| kw_alpha := Some (1 # 2); kw_decay_rate := Some (1 # 2);
     kw_init_method := Some {| addr := 7; chars := "grid" |} |}.

Definition kw_random : kwargs :=
  {| kw_alpha := Some (1 # 2); kw_decay_rate := Some (1 # 2);
     kw_init_method := Some lit_random |}.

(** A sampler that draws [{'x': 0}]. *)
Definition draw_x0 : gmap string param → nat → list (gmap string value) :=
  λ _ _, [ {[ "x" := Num 0 ]} ].

(** ** The discrete sweep: what its theorems are stated with *)

(** The candidates the sweep of a list parameter evaluates: those that are
    not [==] to the current value, in order. *)
Definition tried (orig_val : value) (choices : list value) : list value :=
  List.filter (λ choice, negb (value_eqb choice orig_val)) choices.

(** The score of the configuration [cfg] with [c] set to [choice]. *)
Definition score_at (T : tuner) (cfg : gmap string value) (c : string)
    (choice : value) : Q :=
  eval_fn T (<[c:=choice]> cfg).

(** A score that depends on the discrete coordinate ["mode"] only:
    [A] scores 1, [B] scores 5, [C] scores 3. *)
Definition mode_score : gmap string value → Q :=
  λ cfg, match cfg !! "mode" with
         | Some (Str "A") => 1%Q
         | Some (Str "B") => 5%Q
         | Some (Str "C") => 3%Q
         | _ => 0%Q
         end.

Definition T_modes : tuner :=
  {| search_space := {[ "mode" := PList [Str "A"; Str "B"; Str "C"] ]};
     eval_fn := mode_score; maximize := true; budget := 5 |}.

(** The state in which the configuration is [{'mode': 'A'}] and nothing has
    been evaluated yet. *)
Definition at_mode_A : state :=
  {| config := {[ "mode" := Str "A" ]}; cost := 0; best := None;
     log := []; stdout := [] |}.

(** ** The midpoint initializer: what its theorems are stated with *)

(** The value the ['average'] branch assigns for a search-space entry: the
    midpoint of a range, nothing for any other entry. *)
Definition midpoint (p : param) : option value :=
  match p with
  | PDict (Some (minval, maxval)) => Some (Num ((maxval + minval) / 2)%Q)
  | _ => None
  end.

Definition is_list (p : param) : bool :=
  match p with
  | PList _ => true
  | _ => false
  end.

(** No entry of the search space is a list. *)
Definition list_free (T : tuner) : bool :=
  forallb (λ p, negb (is_list p)) (map_to_list (search_space T)).*2.

(** The call ended without running out of fuel. *)
Definition finished {A} (o : outcome A) : bool :=
  match o with
  | OutOfFuel _ => false
  | _ => true
  end.

(** [alpha] after [j] rounds without a change: [alpha *= decay_rate],
    [j] times. *)
Definition decayed (decay_rate : Q) (j : nat) (alpha : Q) : Q :=
  Nat.iter j (λ a, (a * decay_rate)%Q) alpha.

(** Every range parameter has a number in the configuration. *)
Definition numeric (T : tuner) (s : state) : Prop :=
  ∀ c r, search_space T !! c = Some (PDict (Some r)) →
         ∃ x, config s !! c = Some (Num x).

(** Every range of the search space has [min < max]. *)
Definition proper_ranges (T : tuner) : bool :=
  forallb (λ p, match p with
                | PDict (Some (minval, maxval)) => Qltb minval maxval
                | _ => true
                end)
    (map_to_list (search_space T)).*2.

(** The state is the one the midpoint initializer and the first evaluation
    leave: cost 1 and every range parameter at its midpoint. *)
Definition at_midpoints (T : tuner) (s : state) : Prop :=
  cost s = 1 ∧ ∀ c, config s !! c = search_space T !! c ≫= midpoint.

Definition kw_stuck : kwargs :=
  {| kw_alpha := Some 1%Q; kw_decay_rate := Some 1%Q; kw_init_method := None |}.

(** The most evaluations one coordinate can cost: the number of candidates
    of a list parameter, the sub-budget 10 of a range parameter. *)
Definition step_bound (p : param) : nat :=
  match p with
  | PList choices => length choices
  | PDict (Some _) => 10
  | _ => 0
  end.

(** The largest [step_bound] over the search space. *)
Definition overshoot (T : tuner) : nat :=
  max_list (step_bound <$> (map_to_list (search_space T)).*2).

(** Two configurations hold the same keys with values that are [==]. *)
Definition same_values (cfg cfg' : gmap string value) : Prop :=
  ∀ k, match cfg !! k, cfg' !! k with
       | Some a, Some b => value_eqb a b = true
       | None, None => True
       | _, _ => False
       end.

(** * rekall.video_interval_collection: VideoIntervalCollection

    The constructors and the full outer join of the wrapper that maps video
    ids to interval lists.  Field values and video ids are one type [V] of
    hashable values; a row of the iterable is any [R], read through the
    accessor, which is taken as a total function. *)

Section VideoIntervalCollection.
Context {V : Type} `{Countable V}.
Variables (R IL : Type).

(** The constructor [IntervalList(...)] of rekall.interval_list, applied to
    a list of [(start, end, payload)] tuples.  The class is not among the
    sources: the constructor is a parameter. *)
Variable IntervalList : list (V * V * V) → IL.

(** The same constructor applied to an [IntervalList], as
    [VideoIntervalCollection.__init__] does when it is handed a dict of
    interval lists; a parameter as well. *)
Variable IntervalList_of : IL → IL.

(** [IntervalList.set_union], a parameter as well. *)
Variable il_set_union : IL → IL → IL.

Variable accessor : R → string → V.

(** [schema[key]] *)
Definition schema_field (schema : gmap string string) (key : string)
    : exn + string :=
  match schema !! key with
  | Some field => inr field
  | None => inl (KeyError key)
  end.

(** The loop [for row in iterable] of [from_iterable], on the dict
    [video_ids_to_intervals] built so far. *)
Fixpoint from_iterable_loop (video_id_field : string)
    (schema : gmap string string) (iterable : list R)
    (video_ids_to_intervals : gmap V (list (V * V * V)))
    : exn + gmap V (list (V * V * V)) :=
  match iterable with
  | [] => inr video_ids_to_intervals
  | row :: iterable' =>
    match schema_field schema "start" with
    | inl e => inl e
    | inr f_start =>
      match schema_field schema "end" with
      | inl e => inl e
      | inr f_end =>
        match schema_field schema "payload" with
        | inl e => inl e
        | inr f_payload =>
          let new_tuple :=
            (accessor row f_start, accessor row f_end, accessor row f_payload) in
          let video_id := accessor row video_id_field in
          match video_ids_to_intervals !! accessor row video_id_field with
          | Some tuples =>
            from_iterable_loop video_id_field schema iterable'
              (<[video_id := (tuples ++ [new_tuple])%list]> video_ids_to_intervals)
          | None =>
            from_iterable_loop video_id_field schema iterable'
              (<[video_id := [new_tuple]]> video_ids_to_intervals)
          end
        end
      end
    end
  end.

(** [VideoIntervalCollection(video_ids_to_intervals)] on a dict of tuple
    lists: the [intervals] attribute of the new collection. *)
Definition collection_of_tuples (video_ids_to_intervals : gmap V (list (V * V * V)))
    : gmap V IL :=
  IntervalList <$> video_ids_to_intervals.

(** [VideoIntervalCollection(...)] on a dict of interval lists. *)
Definition collection_of_lists (intervals : gmap V IL) : gmap V IL :=
  IntervalList_of <$> intervals.

Definition from_iterable (iterable : list R) (video_id_field : string)
    (schema : gmap string string) : exn + gmap V IL :=
  match from_iterable_loop video_id_field schema iterable ∅ with
  | inl e => inl e
  | inr video_ids_to_intervals => inr (collection_of_tuples video_ids_to_intervals)
  end.

(** The schema [from_spark_df] and [from_django_qs] fall back to. *)
Definition default_schema : gmap string string :=
  {[ "start" := "min_frame"; "end" := "max_frame"; "payload" := "id" ]}.

(** [from_spark_df] and [from_django_qs], on the rows they read ([collect()]
    of the data frame, the query set) through their [row_accessor]. *)
Definition from_rows (rows : list R) (video_id_field : string)
    (schema : option (gmap string string)) : exn + gmap V IL :=
  let schema := match schema with
                | None => default_schema
                | Some schema => schema
                end in
  from_iterable rows video_id_field schema.

(** The entry [set_union] computes for one video id of the union of the
    key sets. *)
Definition set_union_entry (self_il other_il : option IL) : option IL :=
  match self_il, other_il with
  | Some a, Some b => Some (il_set_union a b)
  | Some a, None => Some a
  | None, Some b => Some b
  | None, None => None
  end.

(** [set_union]: the dict comprehension over
    [set(self.intervals.keys()).union(set(other.intervals.keys()))]. *)
Definition set_union (self_intervals other_intervals : gmap V IL) : gmap V IL :=
  collection_of_lists (merge set_union_entry self_intervals other_intervals).

(** The tuples of the rows of one video, in the order of the iterable. *)
Definition tuples_of (video_id_field f_start f_end f_payload : string)
    (video_id : V) (iterable : list R) : list (V * V * V) :=
  (λ row, (accessor row f_start, accessor row f_end, accessor row f_payload))
    <$> List.filter (λ row, bool_decide (accessor row video_id_field = video_id))
          iterable.
End VideoIntervalCollection.

Arguments from_iterable_loop {V _ _ R} accessor video_id_field schema
  iterable video_ids_to_intervals.
Arguments collection_of_tuples {V _ _ IL} IntervalList video_ids_to_intervals.
Arguments collection_of_lists {V _ _ IL} IntervalList_of intervals.
Arguments from_iterable {V _ _ R IL} IntervalList accessor iterable
  video_id_field schema.
Arguments from_rows {V _ _ R IL} IntervalList accessor rows video_id_field schema.
Arguments set_union {V _ _ IL} IntervalList_of il_set_union
  self_intervals other_intervals.
Arguments tuples_of {V _ R} accessor video_id_field f_start f_end f_payload
  video_id iterable.

(** Rows of a concrete table: [(video_id, min_frame, max_frame, id)]. *)
Definition row_field (row : Z * Z * Z * Z) (field : string) : Z :=
  let '(video, lo, hi, id) := row in
  if String.eqb field "video_id" then video
  else if String.eqb field "min_frame" then lo
  else if String.eqb field "max_frame" then hi
  else id.

Definition three_rows : list (Z * Z * Z * Z) :=
  [ (1, 0, 10, 100); (2, 5, 7, 101); (1, 20, 30, 102) ]%Z.

(** ** Comparisons *)

Lemma Qltb_lt (a b : Q) : Qltb a b = true ↔ (a < b)%Q.
Proof.
  unfold Qltb. rewrite negb_true_iff. split.
  - intros H. apply Qnot_le_lt. intros Hle.
    apply Qle_bool_iff in Hle. congruence.
  - intros H. destruct (Qle_bool b a) eqn:E; [|done].
    apply Qle_bool_iff in E. exfalso. by eapply Qlt_not_le.
Qed.

Lemma Qltb_ge (a b : Q) : Qltb a b = false ↔ (b <= a)%Q.
Proof.
  unfold Qltb. rewrite negb_false_iff. apply Qle_bool_iff.
Qed.

Lemma worse_false_no_worse (T : tuner) (score cur_score : Q) :
  worse T score cur_score = false → no_worse T score cur_score.
Proof.
  unfold worse, no_worse. destruct (maximize T); simpl.
  - rewrite orb_false_r. apply Qltb_ge.
  - apply Qltb_ge.
Qed.

Lemma no_worse_refl (T : tuner) (q : Q) : no_worse T q q.
Proof. unfold no_worse. destruct (maximize T); apply Qle_refl. Qed.

(** ** line_search: what one call does to the state *)

(** Closes a [searched] goal from the [searched] facts at hand. *)
Ltac solve_searched :=
  unfold searched in *; simpl in *;
  repeat match goal with H : _ ∧ _ |- _ => destruct H end;
  repeat split; try lia; try congruence;
  try (intros; rewrite ?lookup_insert_ne by done; auto).

Lemma searched_refl (c : string) (n : nat) (s : state) : searched c n s s.
Proof. solve_searched. Qed.

Section LineSearchFacts.
Variable T : tuner.
Variables (c : string) (minval maxval cur_score : Q).

(** The extension loop always returns; its score stays no worse than
    [cur_score], it evaluates at most [n] times and it writes [c] only. *)
Lemma extend_spec (n : nat) :
  ∀ (delta cur_val prev_score : Q) (k : nat) (s0 s : state),
    no_worse T prev_score cur_score →
    searched c k s0 s →
    ∃ v sc s',
      extend T c minval maxval cur_score n delta cur_val prev_score s
        = Ret (v, sc) s' ∧
      no_worse T sc cur_score ∧ searched c (k + n) s0 s'.
Proof.
  induction n as [|n' IH]; intros delta cur_val prev_score k s0 s Hps Hs; simpl.
  - exists cur_val, prev_score, s. split; [reflexivity|]. split; [done|].
    solve_searched.
  - destruct (Qltb maxval (cur_val + delta) || Qltb (cur_val + delta) minval).
    + exists cur_val, prev_score, s. split; [reflexivity|]. split; [done|].
      solve_searched.
    + unfold bind at 1. unfold set_item at 1. unfold bind at 1.
      unfold evaluate_config at 1. unfold with_config; simpl.
      destruct (worse T _ cur_score) eqn:Hw.
      * eexists _, _, _. split; [reflexivity|]. split; [done|].
        solve_searched.
      * match goal with
        | |- context [extend T c minval maxval cur_score n' delta ?cv ?ps ?st] =>
          destruct (IH delta cv ps (S k) s0 st) as (v & sc & s' & He & Hsc & Hs')
        end.
        -- apply worse_false_no_worse, Hw.
        -- solve_searched.
        -- exists v, sc, s'. split; [exact He|]. split; [done|].
           clear Hs. solve_searched.
Qed.
End LineSearchFacts.

(** Steps through the straight-line part of a method body. *)
Ltac run_body :=
  cbv beta iota zeta delta
    [bind ret raise get_range get_param get_item set_item get_cost log_msg
     evaluate_config with_config];
  simpl.

(** One call of [line_search]: at most [max budget 2] evaluations, only the
    searched coordinate written, nothing logged or printed; a returned score
    is no worse than [cur_score]; an exception leaves the state as it was. *)
Lemma line_search_spec (T : tuner) (c : string) (epsilon : Q) (b : nat)
    (cur_score : Q) (s : state) :
  searched c (Nat.max b 2) s (final_state (line_search T c epsilon b cur_score s)) ∧
  match line_search T c epsilon b cur_score s with
  | Ret (_, sc) _ => no_worse T sc cur_score
  | Raise _ s' => s' = s
  | OutOfFuel _ => False
  end.
Proof.
  unfold line_search. run_body.
  destruct (search_space T !! c) as [[choices|[[minval maxval]|]|]|];
    try (split; [apply searched_refl | reflexivity]).
  destruct (config s !! c) as [[orig_val|str]|];
    try (split; [apply searched_refl | reflexivity]).
  set (delta := (epsilon * (maxval - minval))%Q).
  destruct (Qltb maxval (orig_val + delta) && Qltb (orig_val - delta) minval).
  { split; [apply searched_refl | apply no_worse_refl]. }
  destruct (worse T _ cur_score) eqn:Hw1; simpl.
  - clear Hw1. destruct (worse T _ cur_score) eqn:Hw2; simpl.
    + split; [|apply no_worse_refl]. solve_searched.
    + match goal with
      | |- context [extend T c minval maxval cur_score ?n ?d ?cv ?ps ?st] =>
        destruct (extend_spec T c minval maxval cur_score n d cv ps 2 s st)
          as (v & sc & s' & -> & Hsc & Hs')
      end.
      * apply worse_false_no_worse, Hw2.
      * solve_searched.
      * split; [|exact Hsc]. solve_searched.
  - match goal with
    | |- context [extend T c minval maxval cur_score ?n ?d ?cv ?ps ?st] =>
      destruct (extend_spec T c minval maxval cur_score n d cv ps 1 s st)
        as (v & sc & s' & -> & Hsc & Hs')
    end.
    + apply worse_false_no_worse, Hw1.
    + solve_searched.
    + split; [|exact Hsc]. solve_searched.
Qed.

(** On a range coordinate that holds a number [line_search] returns. *)
Lemma line_search_returns (T : tuner) (c : string) (epsilon : Q) (b : nat)
    (cur_score : Q) (s : state) (r : Q * Q) (x : Q) :
  search_space T !! c = Some (PDict (Some r)) →
  config s !! c = Some (Num x) →
  ∃ v sc s', line_search T c epsilon b cur_score s = Ret (v, sc) s'.
Proof.
  intros Hp Hx. destruct r as [minval maxval].
  unfold line_search. run_body. rewrite Hp; simpl. rewrite Hx; simpl.
  set (delta := (epsilon * (maxval - minval))%Q).
  destruct (Qltb maxval (x + delta) && Qltb (x - delta) minval); [by eauto|].
  destruct (worse T _ cur_score) eqn:Hw1; simpl.
  - clear Hw1. destruct (worse T _ cur_score) eqn:Hw2; simpl; [by eauto|].
    match goal with
    | |- context [extend T c minval maxval cur_score ?n ?d ?cv ?ps ?st] =>
      destruct (extend_spec T c minval maxval cur_score n d cv ps 0 st st)
        as (v & sc & s' & -> & _);
        [apply worse_false_no_worse, Hw2 | apply searched_refl |]
    end.
    eauto.
  - match goal with
    | |- context [extend T c minval maxval cur_score ?n ?d ?cv ?ps ?st] =>
      destruct (extend_spec T c minval maxval cur_score n d cv ps 0 st st)
        as (v & sc & s' & -> & _);
        [apply worse_false_no_worse, Hw1 | apply searched_refl |]
    end.
    eauto.
Qed.

Section LineSearchValue.
Variable T : tuner.
Variables (c : string) (minval maxval cur_score : Q).

(** When the extension loop returns [v], the coordinate holds the last
    value that was tried: [v] itself, or the rejected value one [delta]
    beyond it. *)
Lemma extend_last_value (n : nat) :
  ∀ (delta cur_val prev_score : Q) (s : state) (v sc : Q) (s' : state),
    config s !! c = Some (Num cur_val) →
    extend T c minval maxval cur_score n delta cur_val prev_score s
      = Ret (v, sc) s' →
    ∃ w, config s' !! c = Some (Num w) ∧ (w = v ∨ v = (w - delta)%Q).
Proof.
  induction n as [|n' IH]; intros delta cur_val prev_score s v sc s' Hc; simpl.
  - intros [= <- <- <-]. eauto.
  - destruct (Qltb maxval (cur_val + delta) || Qltb (cur_val + delta) minval).
    + intros [= <- <- <-]. eauto.
    + run_body. destruct (worse T _ cur_score).
      * intros [= <- <- <-]. simpl. exists (cur_val + delta)%Q.
        split; [apply lookup_insert_eq | by right].
      * apply IH. simpl. apply lookup_insert_eq.
Qed.
End LineSearchValue.

(** ** line_search: the claims *)

(** C2 (the code at the failing input).  The coordinate ["x"] has the range
    [[0, 10]], the configuration holds [x = 10], inside the range, and
    [epsilon = 1]; the score is flat.  The upward probe [10 + 10] is
    evaluated although it lies above [max], it is not worse than
    [cur_score], and [line_search] returns it: the returned value 20 is
    outside [[0, 10]]. *)
Theorem line_search_leaves_range :
  search_space T_flat !! "x" = Some (PDict (Some (0, 10)%Q)) ∧
  config (at_x 10) !! "x" = Some (Num 10) ∧
  (0 <= 10)%Q ∧ (10 <= 10)%Q ∧ (0 < 1)%Q ∧ (1 <= 1)%Q ∧
  returned (line_search T_flat "x" 1 10 0 (at_x 10)) = Some (20%Q, 0%Q) ∧
  (10 < 20)%Q.
Proof. repeat split; vm_compute; congruence. Qed.

(** C3.  Whenever [line_search] returns a pair, its score component is no
    worse than the [cur_score] passed in: at least [cur_score] when
    maximizing, at most [cur_score] when minimizing. *)
Theorem line_search_score_no_worse (T : tuner) (c : string) (epsilon : Q)
    (b : nat) (cur_score : Q) (s : state) (v sc : Q) (s' : state) :
  line_search T c epsilon b cur_score s = Ret (v, sc) s' →
  no_worse T sc cur_score.
Proof.
  intros H. pose proof (line_search_spec T c epsilon b cur_score s) as [_ Hs].
  by rewrite H in Hs.
Qed.

Lemma line_search_score_no_worse_witness :
  ∃ sc, snd <$> returned (line_search T_peak "x" (1 # 10) 10 (-4) (at_x 3))
          = Some sc ∧
        no_worse T_peak sc (-4).
Proof.
  eexists. split; [vm_compute; reflexivity|].
  eapply (line_search_score_no_worse T_peak "x" (1 # 10) 10 (-4) (at_x 3)).
  vm_compute. reflexivity.
Defined.

(** C4 (as stated, refuted).  With the sub-budget 0 the call below evaluates
    twice: both direction probes run before the sub-budget is looked at. *)
Lemma line_search_exceeds_sub_budget :
  evaluations (at_x 5)
    (final_state (line_search T_peak "x" (1 # 10) 0 0 (at_x 5))) = 2 ∧
  ¬ (evaluations (at_x 5)
       (final_state (line_search T_peak "x" (1 # 10) 0 0 (at_x 5))) ≤ 0).
Proof. split; vm_compute; [reflexivity | lia]. Qed.

(** C4 (amended).  A call of [line_search] with the sub-budget [b] invokes
    [evaluate_config] at most [max b 2] times: at most [b] times when [b] is
    2 or more, and never more than the two direction probes otherwise. *)
Theorem line_search_evaluations (T : tuner) (c : string) (epsilon : Q)
    (b : nat) (cur_score : Q) (s : state) :
  evaluations s (final_state (line_search T c epsilon b cur_score s))
    ≤ Nat.max b 2.
Proof.
  pose proof (line_search_spec T c epsilon b cur_score s) as [(H1 & H2 & _) _].
  unfold evaluations. lia.
Qed.

(** C9 (as stated, refuted).  Both probes around the peak [x = 5] are worse,
    so the call returns the original value 5, but the configuration is left
    at the second probe, [x = 4]. *)
Lemma line_search_leaves_trial_value :
  returned (line_search T_peak "x" (1 # 10) 10 0 (at_x 5)) = Some (5%Q, 0%Q) ∧
  config (final_state (line_search T_peak "x" (1 # 10) 10 0 (at_x 5))) !! "x"
    = Some (Num (40 # 10)) ∧
  ¬ (40 # 10 == 5)%Q.
Proof. repeat split; vm_compute; congruence. Qed.

(** C9 (amended).  When [line_search] returns [(v, s)], every coordinate
    other than the searched one is unchanged from its value at entry.  The
    searched coordinate is left at the last value [line_search] assigned to
    it: [v] itself, or a rejected trial value one step [epsilon * (max - min)]
    above or below [v]. *)
Theorem line_search_frame (T : tuner) (c : string) (epsilon : Q) (b : nat)
    (cur_score : Q) (s : state) (minval maxval v sc : Q) (s' : state) :
  search_space T !! c = Some (PDict (Some (minval, maxval))) →
  line_search T c epsilon b cur_score s = Ret (v, sc) s' →
  (∀ k, k ≠ c → config s' !! k = config s !! k) ∧
  ∃ w, config s' !! c = Some (Num w) ∧
       (w == v ∨ w == v + epsilon * (maxval - minval)
        ∨ w == v - epsilon * (maxval - minval))%Q.
Proof.
  intros Hp H. split.
  { pose proof (line_search_spec T c epsilon b cur_score s) as [Hs _].
    rewrite H in Hs. simpl in Hs. apply Hs. }
  revert H. unfold line_search. run_body. rewrite Hp; simpl.
  destruct (config s !! c) as [[orig_val|str]|] eqn:Hc; simpl; try done.
  set (delta := (epsilon * (maxval - minval))%Q).
  destruct (Qltb maxval (orig_val + delta) && Qltb (orig_val - delta) minval).
  { intros [= <- <- <-]. exists orig_val. split; [done|]. by left. }
  destruct (worse T _ cur_score); simpl.
  - destruct (worse T _ cur_score); simpl.
    + intros [= <- <- <-]. simpl. exists (orig_val + -1 * delta)%Q.
      split; [apply lookup_insert_eq|]. right; right. ring.
    + intros H. eapply extend_last_value in H; [|simpl; apply lookup_insert_eq].
      destruct H as (w & Hw & [Hv|Hv]); subst v; exists w; (split; [done|]).
      * by left.
      * right; right. ring.
  - intros H. eapply extend_last_value in H; [|simpl; apply lookup_insert_eq].
    destruct H as (w & Hw & [Hv|Hv]); subst v; exists w; (split; [done|]).
    + by left.
    + right; left. ring.
Qed.

Lemma line_search_frame_witness :
  ∃ w, config (final_state (line_search T_peak "x" (1 # 10) 10 0 (at_x 5))) !! "x"
         = Some (Num w) ∧
       (w == 5 ∨ w == 5 + (1 # 10) * (10 - 0) ∨ w == 5 - (1 # 10) * (10 - 0))%Q.
Proof.
  eapply (line_search_frame T_peak "x" (1 # 10) 10 0 (at_x 5) 0 10 5 0).
  - reflexivity.
  - vm_compute. reflexivity.
Defined.

(** ** tune_impl: the loops *)

Lemma coordinates_spec (T : tuner) (c : string) :
  c ∈ coordinates T ↔ is_Some (search_space T !! c).
Proof.
  unfold coordinates. rewrite merge_sort_Permutation, elem_of_elements.
  apply elem_of_dom.
Qed.

Lemma continuous_only_lookup (T : tuner) (c : string) (p : param) :
  continuous_only T = true → search_space T !! c = Some p → is_range p = true.
Proof.
  unfold continuous_only. rewrite forallb_forall. intros Hall Hc.
  apply Hall, list_elem_of_In, list_elem_of_fmap.
  exists (c, p). split; [done|]. by apply elem_of_map_to_list.
Qed.

Section ContinuousRun.
Variable T : tuner.
Variable generate_configs : gmap string param → nat → list (gmap string value).
Hypothesis Hcont : continuous_only T = true.

Lemma coordinate_step_within (alpha : Q) (c : string) (changed : bool)
    (cur_score : Q) (s : state) :
  cost s ≤ budget T → within (budget T + 10) s →
  within (budget T + 10)
    (final_state (coordinate_step T alpha c changed cur_score s)).
Proof.
  intros Hle [Hc Hl]. unfold coordinate_step. run_body.
  assert (Forall (λ m, msg_cost m ≤ budget T + 10)
            (log s ++ [MsgCoordinate c (cost s)])) as Hl'.
  { apply Forall_app. split; [done|]. apply Forall_singleton. simpl. lia. }
  destruct (config s !! c) as [orig_val|]; simpl; [|by split].
  destruct (search_space T !! c) as [p|] eqn:Hp; simpl; [|by split].
  pose proof (continuous_only_lookup T c p Hcont Hp) as Hr.
  destruct p as [choices|[r|]|]; try discriminate Hr.
  match goal with
  | |- context [line_search T c alpha 10 cur_score ?st] =>
    pose proof (line_search_spec T c alpha 10 cur_score st) as [Hs _];
    destruct (line_search T c alpha 10 cur_score st) as [[v sc] s'|e s'|s']
  end; destruct Hs as (H1 & H2 & _ & H4 & _); simpl in *.
  - split; simpl; [lia|]. rewrite H4. apply Forall_app. split; [done|].
    apply Forall_singleton. simpl. lia.
  - split; [lia|]. by rewrite H4.
  - split; [lia|]. by rewrite H4.
Qed.

Lemma sweep_within (alpha : Q) (coords : list string) :
  ∀ (changed : bool) (cur_score : Q) (s : state),
    within (budget T + 10) s →
    within (budget T + 10)
      (final_state (sweep T alpha coords changed cur_score s)).
Proof.
  induction coords as [|c coords' IH]; intros changed cur_score s Hs; simpl.
  - done.
  - unfold bind at 1. unfold get_cost at 1.
    destruct (budget T <? cost s) eqn:Hb; [done|].
    apply Nat.ltb_ge in Hb.
    pose proof (coordinate_step_within alpha c changed cur_score s Hb Hs) as Hstep.
    unfold bind.
    destruct (coordinate_step T alpha c changed cur_score s)
      as [[changed' cur_score'] s'|e s'|s']; simpl in *; [|done..].
    by apply IH.
Qed.

Lemma rounds_loop_within (fuel : nat) :
  ∀ (decay_rate alpha cur_score : Q) (rounds : nat) (s : state),
    within (budget T + 10) s →
    within (budget T + 10)
      (final_state (rounds_loop T fuel decay_rate alpha cur_score rounds s)).
Proof.
  induction fuel as [|fuel' IH]; intros decay_rate alpha cur_score rounds s Hs;
    simpl; [done|].
  unfold bind at 1. unfold get_cost at 1.
  destruct (cost s <? budget T) eqn:Hb; [|done].
  apply Nat.ltb_lt in Hb.
  unfold bind at 1. unfold log_msg at 1. unfold bind at 1.
  match goal with
  | |- context [sweep T alpha (coordinates T) false cur_score ?st] =>
    assert (within (budget T + 10) st) as Hs1;
    [|pose proof (sweep_within alpha (coordinates T) false cur_score st Hs1) as Hsw;
      destruct (sweep T alpha (coordinates T) false cur_score st)
        as [[changed cur_score'] s'|e s'|s']; simpl in *; [|done..]]
  end.
  { destruct Hs as [Hc Hl]. split; simpl; [done|].
    apply Forall_app. split; [done|]. apply Forall_singleton. simpl. lia. }
  destruct changed; simpl; [by apply IH|].
  assert (∀ m, within (budget T + 10)
            {| config := config s'; cost := cost s'; best := best s';
               log := log s' ++ [MsgNewAlpha m (cost s')];
               stdout := stdout s' |}) as Hs2.
  { intros m. destruct Hsw as [Hc Hl]. split; simpl; [done|].
    apply Forall_app. split; [done|]. apply Forall_singleton. simpl. lia. }
  unfold bind at 1. unfold get_cost at 1.
  unfold bind at 1. unfold log_msg at 1.
  destruct (Qltb (alpha * decay_rate) (1 # 1000000)); [apply Hs2|].
  apply IH, Hs2.
Qed.

Lemma init_average_quiet (coords : list string) :
  ∀ s : state,
    cost (final_state (init_average T coords s)) = cost s ∧
    log (final_state (init_average T coords s)) = log s ∧
    stdout (final_state (init_average T coords s)) = stdout s.
Proof.
  induction coords as [|c coords' IH]; intros s; simpl; [done|].
  run_body. destruct (search_space T !! c) as [p|]; simpl; [|done].
  destruct p as [[|choice choices]|[[minval maxval]|]|]; simpl;
    try done; try apply IH.
  destruct (IH (with_config (insert c (Num ((maxval + minval) / 2))) s))
    as (H1 & H2 & H3). unfold with_config in *. by rewrite H1, H2, H3.
Qed.

Lemma search_within (fuel : nat) (decay_rate alpha : Q) (s : state) :
  cost s = 0 → log s = [] →
  within (budget T + 10) (final_state (search T fuel decay_rate alpha s)).
Proof.
  intros Hc Hl. unfold search. unfold bind at 1. unfold evaluate_config at 1.
  apply rounds_loop_within. split; simpl; [lia|]. rewrite Hl. constructor.
Qed.

Lemma tune_within (fuel : nat) (kw : kwargs) :
  within (budget T + 10) (final_state (tune T generate_configs fuel kw)).
Proof.
  assert (within (budget T + 10) fresh) as Hfresh.
  { split; simpl; [lia | constructor]. }
  unfold tune, tune_impl.
  destruct (kw_alpha kw) as [alpha|]; [|exact Hfresh].
  destruct (kw_decay_rate kw) as [decay_rate|]; [|exact Hfresh].
  destruct (py_is _ lit_average).
  - unfold bind at 1. unfold bind at 1.
    match goal with
    | |- context [init_average T (coordinates T) ?st] =>
      destruct (init_average_quiet (coordinates T) st) as (H1 & H2 & _);
      destruct (init_average T (coordinates T) st) as [[] s'|e s'|s'];
      simpl in *
    end.
    + by apply search_within.
    + split; [lia|]. rewrite H2. constructor.
    + split; [lia|]. rewrite H2. constructor.
  - destruct (py_is _ lit_random); [|exact Hfresh].
    destruct (generate_configs (search_space T) 1 !! 0) as [cfg|]; [|exact Hfresh].
    unfold bind at 1. by apply search_within.
Qed.
End ContinuousRun.

(** ** tune_impl: the claims *)

(** C5.  Over a search space of range parameters only, a run of [tune]
    started by the base class with cost 0 never gets beyond
    [budget + 10] evaluations: whatever the options, the random sample and
    the number of rounds run so far, the cost reached, and every cost the
    run logged on the way, is at most [budget + 10]. *)
Theorem tune_cost_bound (T : tuner)
    (generate_configs : gmap string param → nat → list (gmap string value))
    (fuel : nat) (kw : kwargs) :
  continuous_only T = true →
  cost (final_state (tune T generate_configs fuel kw)) ≤ budget T + 10 ∧
  Forall (λ m, msg_cost m ≤ budget T + 10)
    (log (final_state (tune T generate_configs fuel kw))).
Proof. intros Hcont. by apply tune_within. Qed.

Lemma tune_cost_bound_witness :
  cost (final_state (tune T_flat no_random 50 kw_half)) ≤ budget T_flat + 10.
Proof.
  apply (tune_cost_bound T_flat no_random 50 kw_half). reflexivity.
Defined.

Lemma rounds_loop_returns_none (T : tuner) (fuel : nat) :
  ∀ (decay_rate alpha cur_score : Q) (rounds : nat) (s : state) (v : pyret)
    (s' : state),
    rounds_loop T fuel decay_rate alpha cur_score rounds s = Ret v s' →
    v = RNone.
Proof.
  induction fuel as [|fuel' IH]; intros decay_rate alpha cur_score rounds s v s';
    simpl; [done|].
  unfold bind at 1. unfold get_cost at 1.
  destruct (cost s <? budget T); [|by intros [= <- _]].
  unfold bind at 1. unfold log_msg at 1. unfold bind at 1.
  destruct (sweep T alpha (coordinates T) false cur_score _)
    as [[changed cur_score'] s1|e s1|s1]; [|done..].
  destruct changed; simpl; [apply IH|].
  unfold bind at 1. unfold get_cost at 1.
  unfold bind at 1. unfold log_msg at 1.
  destruct (Qltb (alpha * decay_rate) (1 # 1000000)); [by intros [= <- _]|].
  apply IH.
Qed.

Lemma search_returns_none (T : tuner) (fuel : nat) (decay_rate alpha : Q)
    (s : state) (v : pyret) (s' : state) :
  search T fuel decay_rate alpha s = Ret v s' → v = RNone.
Proof.
  unfold search. unfold bind at 1. unfold evaluate_config at 1.
  apply rounds_loop_returns_none.
Qed.

(** C1 (as stated, refuted).  The run below completes; the configuration it
    ends with is [{'x': 5}], and the call returns [None], not that
    configuration with a score. *)
Lemma tune_impl_returns_no_result :
  returned (tune T_peak no_random 50 kw_half) = Some RNone ∧
  config (final_state (tune T_peak no_random 50 kw_half)) !! "x"
    = Some (Num (10 # 2)) ∧
  ∀ sc, returned (tune T_peak no_random 50 kw_half)
        ≠ Some (RResult (config (final_state (tune T_peak no_random 50 kw_half))) sc).
Proof.
  assert (returned (tune T_peak no_random 50 kw_half) = Some RNone) as H
    by (vm_compute; reflexivity).
  split; [exact H|]. split; [vm_compute; reflexivity|].
  intros sc. rewrite H. discriminate.
Qed.

(** C1 (amended).  Every completed run of [tune_impl] returns [None]: the
    method has no [return] that hands back a value.  The final configuration
    stays in the configuration object and the tracked best in the tuner's
    state. *)
Theorem tune_impl_returns_none (T : tuner)
    (generate_configs : gmap string param → nat → list (gmap string value))
    (fuel : nat) (kw : kwargs) (s : state) (v : pyret) (s' : state) :
  tune_impl T generate_configs fuel kw s = Ret v s' → v = RNone.
Proof.
  unfold tune_impl.
  destruct (kw_alpha kw) as [alpha|]; [|by intros [= <- _]].
  destruct (kw_decay_rate kw) as [decay_rate|]; [|by intros [= <- _]].
  destruct (py_is _ lit_average).
  - unfold bind at 1. unfold bind at 1.
    destruct (init_average T (coordinates T) _) as [[] s1|e s1|s1]; [|done..].
    apply search_returns_none.
  - destruct (py_is _ lit_random); [|by intros [= <- _]].
    destruct (generate_configs (search_space T) 1 !! 0) as [cfg|]; [|done].
    unfold bind at 1. apply search_returns_none.
Qed.

Lemma tune_impl_returns_none_witness :
  returned (tune_impl T_peak no_random 50 kw_half fresh) = Some RNone.
Proof.
  destruct (tune_impl T_peak no_random 50 kw_half fresh) as [v s'|e s'|s'] eqn:H;
    [|vm_compute in H; discriminate H..].
  simpl. f_equal.
  exact (tune_impl_returns_none T_peak no_random 50 kw_half fresh v s' H).
Defined.

(** C7 (as stated, refuted).  Without [alpha], and with an [init_method]
    that is neither ['average'] nor ['random'], the call evaluates nothing,
    but it does not raise: it returns [None], the very value a completed
    search returns, and the error only shows as a line on standard output. *)
Lemma tune_impl_error_not_raised :
  evaluations fresh (final_state (tune T_flat no_random 50 kw_no_alpha)) = 0 ∧
  raised (tune T_flat no_random 50 kw_no_alpha) = false ∧
  raised (tune T_flat no_random 50 kw_grid) = false ∧
  returned (tune T_flat no_random 50 kw_no_alpha) = Some RNone ∧
  returned (tune T_flat no_random 50 kw_grid) = Some RNone ∧
  returned (tune T_flat no_random 50 kw_half) = Some RNone.
Proof. repeat split; vm_compute; reflexivity. Qed.

(** C7 (amended).  When [alpha] or [decay_rate] is missing, or [init_method]
    is neither ['average'] nor ['random'], [tune_impl] aborts before any
    evaluation: it prints one line on standard output and returns [None]
    normally; no exception is raised and nothing else of the state changes. *)
Theorem tune_impl_bad_options (T : tuner)
    (generate_configs : gmap string param → nat → list (gmap string value))
    (fuel : nat) (kw : kwargs) (s : state) :
  kw_alpha kw = None ∨ kw_decay_rate kw = None ∨
  (∃ m, kw_init_method kw = Some m ∧ str_ok m ∧
        chars m ≠ "average" ∧ chars m ≠ "random") →
  ∃ line,
    tune_impl T generate_configs fuel kw s = Ret RNone (printed line s) ∧
    evaluations s (printed line s) = 0.
Proof.
  intros H. unfold tune_impl.
  assert (∀ line, evaluations s (printed line s) = 0) as Hev.
  { intros line. unfold evaluations. simpl. lia. }
  destruct (kw_alpha kw) as [alpha|]; [|by eexists].
  destruct (kw_decay_rate kw) as [decay_rate|]; [|by eexists].
  destruct H as [H|[H|(m & -> & [Hav Hrn] & Hne1 & Hne2)]]; [done..|].
  unfold py_is.
  destruct (Nat.eqb_spec (addr m) (addr lit_average)) as [E|_];
    [by apply Hav in E|].
  destruct (Nat.eqb_spec (addr m) (addr lit_random)) as [E|_];
    [by apply Hrn in E|].
  by eexists.
Qed.

Lemma tune_impl_bad_options_witness :
  ∃ line,
    tune_impl T_flat no_random 50 kw_grid fresh = Ret RNone (printed line fresh) ∧
    evaluations fresh (printed line fresh) = 0.
Proof.
  apply (tune_impl_bad_options T_flat no_random 50 kw_grid fresh).
  right; right. exists {| addr := 7; chars := "grid" |}.
  split; [reflexivity|]. split; [|split; discriminate].
  split; simpl; intros E; discriminate E.
Defined.

Lemma init_average_raises (T : tuner) (coords : list string) :
  ∀ s : state,
    (∀ c, c ∈ coords → is_Some (search_space T !! c)) →
    (∃ c choices, c ∈ coords ∧ search_space T !! c = Some (PList choices)) →
    ∃ e s',
      init_average T coords s = Raise e s' ∧
      cost s' = cost s ∧ log s' = log s ∧
      (e = NameError "k" ∨
       e = IndexError ∧ ∃ c', search_space T !! c' = Some (PList [])).
Proof.
  induction coords as [|c0 coords' IH]; intros s Hkeys (c & choices & Hin & Hc).
  { by apply elem_of_nil in Hin. }
  simpl. run_body.
  destruct (Hkeys c0) as [p Hp]; [by left|]. rewrite Hp; simpl.
  assert (is_range p = true ∨ unrecognized p = true →
          ∃ c choices, c ∈ coords' ∧ search_space T !! c = Some (PList choices))
    as Hrest.
  { intros Hshape. exists c, choices. split; [|done].
    apply elem_of_cons in Hin as [->|Hin]; [|done].
    rewrite Hp in Hc. injection Hc as ->. by destruct Hshape. }
  assert (∀ c, c ∈ coords' → is_Some (search_space T !! c)) as Hkeys'.
  { intros c' Hc'. apply Hkeys. by right. }
  destruct p as [[|choice choices']|[[minval maxval]|]|]; simpl.
  - exists IndexError, s. repeat split; try done. right. split; [done|]. by exists c0.
  - exists (NameError "k"), s. repeat split; try done. by left.
  - destruct (IH (with_config (insert c0 (Num ((maxval + minval) / 2))) s))
      as (e & s' & He & H1 & H2 & H3); [done | apply Hrest; by left |].
    unfold with_config in He. exists e, s'. by rewrite He.
  - destruct (IH s) as (e & s' & He & H1 & H2 & H3);
      [done | apply Hrest; by right |].
    exists e, s'. by rewrite He.
  - destruct (IH s) as (e & s' & He & H1 & H2 & H3);
      [done | apply Hrest; by right |].
    exists e, s'. by rewrite He.
Qed.

(** C8.  Whenever the search space holds a list parameter and the options
    (with [alpha] and [decay_rate] supplied) select the midpoint initializer,
    [tune_impl] fails in the initializer's list branch before the search
    starts: nothing is evaluated or logged, and the exception is the
    NameError of the unbound name [k] (an IndexError from [param[0]] when the
    list reached first is empty). *)
Theorem tune_impl_average_fails_on_list (T : tuner)
    (generate_configs : gmap string param → nat → list (gmap string value))
    (fuel : nat) (kw : kwargs) (s : state) (alpha decay_rate : Q)
    (c : string) (choices : list value) :
  kw_alpha kw = Some alpha →
  kw_decay_rate kw = Some decay_rate →
  selects_average kw = true →
  search_space T !! c = Some (PList choices) →
  ∃ e s',
    tune_impl T generate_configs fuel kw s = Raise e s' ∧
    evaluations s s' = 0 ∧ log s' = log s ∧
    (e = NameError "k" ∨
     e = IndexError ∧ ∃ c', search_space T !! c' = Some (PList [])).
Proof.
  intros Ha Hd Hsel Hc. unfold tune_impl. rewrite Ha, Hd.
  unfold selects_average in Hsel.
  assert (py_is match kw_init_method kw with Some m => m | None => lit_average end
            lit_average = true) as ->.
  { by destruct (kw_init_method kw). }
  unfold bind at 1. unfold bind at 1.
  match goal with
  | |- context [init_average T (coordinates T) ?st] =>
    destruct (init_average_raises T (coordinates T) st)
      as (e & s' & -> & H1 & H2 & H3)
  end.
  - intros c' Hc'. by apply coordinates_spec.
  - exists c, choices. split; [|done]. apply coordinates_spec. by rewrite Hc.
  - exists e, s'. split; [done|]. unfold evaluations. simpl in *.
    split; [lia|]. by split.
Qed.

Lemma tune_impl_average_fails_on_list_witness :
  ∃ e s',
    tune_impl T_mixed no_random 50 kw_half fresh = Raise e s' ∧
    evaluations fresh s' = 0 ∧ log s' = log fresh ∧
    (e = NameError "k" ∨
     e = IndexError ∧ ∃ c', search_space T_mixed !! c' = Some (PList [])).
Proof.
  apply (tune_impl_average_fails_on_list T_mixed no_random 50 kw_half fresh
           (1 # 2) (1 # 2) "mode" [Str "fast"; Str "slow"]); reflexivity.
Defined.

(** C6 (the code at the failing input).  Two range coordinates, budget 2,
    a flat score.  The search of ["a"] brings the cost to 2, the budget; the
    check before ["b"] is [cost > budget], so the search of ["b"] is started
    at cost 2 (the log line of ["b"] reports it) and spends a third
    evaluation. *)
Theorem sweep_starts_search_at_budget :
  budget T_ab = 2 ∧
  log (final_state (tune T_ab no_random 50 kw_half)) =
    [ MsgRound 0 1;
      MsgCoordinate "a" 1; MsgOldNew (Num (10 # 2)) (Num (40 # 4));
      MsgCoordinate "b" 2; MsgOldNew (Num (10 # 2)) (Num (40 # 4)) ] ∧
  cost (final_state (tune T_ab no_random 50 kw_half)) = 3 ∧
  returned (tune T_ab no_random 50 kw_half) = Some RNone.
Proof. repeat split; vm_compute; reflexivity. Qed.

(** C10 (as stated, refuted).  The entry of ["x"] is neither a list nor a
    dict.  With a value for ["x"] in the configuration the sweep passes over
    the coordinate: no error, no evaluation, nothing changed; a whole run
    started from such a configuration ends normally after the one initial
    evaluation. *)
Lemma sweep_skips_unrecognized :
  search_space T_odd !! "x" = Some POther ∧
  coordinate_step T_odd (1 # 2) "x" false 0 (at_x 0)
    = Ret (false, 0%Q) (logged (MsgCoordinate "x" 0) (at_x 0)) ∧
  raised (tune T_odd draw_x0 50 kw_random) = false ∧
  returned (tune T_odd draw_x0 50 kw_random) = Some RNone ∧
  cost (final_state (tune T_odd draw_x0 50 kw_random)) = 1.
Proof. repeat split; vm_compute; reflexivity. Qed.

(** C10 (amended).  For a parameter whose entry is neither a list nor a dict
    carrying ['range'], the dispatch of the sweep has no branch: when the
    configuration holds a value for the coordinate, the coordinate is passed
    over (no error, no evaluation, no change); when it holds none, as after
    the midpoint initializer, the sweep stops with the KeyError of reading
    [config[coordinate]], before the dispatch. *)
Theorem coordinate_step_unrecognized (T : tuner) (alpha : Q) (c : string)
    (changed : bool) (cur_score : Q) (s : state) (p : param) :
  search_space T !! c = Some p →
  unrecognized p = true →
  coordinate_step T alpha c changed cur_score s =
    match config s !! c with
    | Some _ => Ret (changed, cur_score) (logged (MsgCoordinate c (cost s)) s)
    | None => Raise (KeyError c) (logged (MsgCoordinate c (cost s)) s)
    end.
Proof.
  intros Hp Hu. unfold coordinate_step. run_body.
  destruct (config s !! c) as [orig_val|]; simpl; [|done].
  rewrite Hp; simpl. by destruct p as [choices|[r|]|].
Qed.

Lemma coordinate_step_unrecognized_witness :
  coordinate_step T_odd (1 # 2) "x" false 0 fresh
    = Raise (KeyError "x") (logged (MsgCoordinate "x" 0) fresh).
Proof.
  apply (coordinate_step_unrecognized T_odd (1 # 2) "x" false 0 fresh POther);
    reflexivity.
Defined.

Lemma started_within_logged (bound : nat) (m : msg) (s : state) :
  match m with MsgCoordinate _ k => k ≤ bound | _ => True end →
  started_within bound s → started_within bound (logged m s).
Proof.
  intros Hm Hs. unfold started_within, logged; simpl.
  apply Forall_app. split; [done|]. by apply Forall_singleton.
Qed.

Section AnyRun.
Variable T : tuner.
Variable generate_configs : gmap string param → nat → list (gmap string value).

Lemma try_choices_log (c : string) (orig_val : value) (choices : list value) :
  ∀ (best_choice : value) (max_score : Q) (s : state),
    log (final_state (try_choices T c orig_val choices best_choice max_score s))
      = log s.
Proof.
  induction choices as [|choice choices' IH]; intros best_choice max_score s;
    simpl; [done|].
  destruct (value_eqb choice orig_val); [apply IH|].
  run_body. destruct (better T _ max_score); by rewrite IH.
Qed.

Lemma coordinate_step_started (alpha : Q) (c : string) (changed : bool)
    (cur_score : Q) (s : state) :
  cost s ≤ budget T → started_within (budget T) s →
  started_within (budget T)
    (final_state (coordinate_step T alpha c changed cur_score s)).
Proof.
  intros Hle Hs. unfold coordinate_step. run_body.
  pose proof (started_within_logged (budget T) (MsgCoordinate c (cost s)) s Hle Hs)
    as Hs1. unfold logged in Hs1.
  destruct (config s !! c) as [orig_val|]; simpl; [|done].
  destruct (search_space T !! c) as [p|]; simpl; [|done].
  destruct p as [choices|[r|]|]; try done.
  - match goal with
    | |- context [try_choices T c orig_val choices orig_val cur_score ?st] =>
      pose proof (try_choices_log c orig_val choices orig_val cur_score st) as Hl;
      destruct (try_choices T c orig_val choices orig_val cur_score st)
        as [[best_choice max_score] s'|e s'|s']
    end; simpl in *; unfold started_within in *; simpl; rewrite Hl; [|done..].
    apply Forall_app. split; [done|]. by apply Forall_singleton.
  - match goal with
    | |- context [line_search T c alpha 10 cur_score ?st] =>
      pose proof (line_search_spec T c alpha 10 cur_score st) as [Hsp _];
      destruct (line_search T c alpha 10 cur_score st) as [[v sc] s'|e s'|s']
    end; destruct Hsp as (_ & _ & _ & Hl & _); simpl in *;
      unfold started_within in *; simpl; rewrite Hl; [|done..].
    apply Forall_app. split; [done|]. by apply Forall_singleton.
Qed.

Lemma sweep_started (alpha : Q) (coords : list string) :
  ∀ (changed : bool) (cur_score : Q) (s : state),
    started_within (budget T) s →
    started_within (budget T)
      (final_state (sweep T alpha coords changed cur_score s)).
Proof.
  induction coords as [|c coords' IH]; intros changed cur_score s Hs; simpl;
    [done|].
  unfold bind at 1. unfold get_cost at 1.
  destruct (budget T <? cost s) eqn:Hb; [done|].
  apply Nat.ltb_ge in Hb.
  pose proof (coordinate_step_started alpha c changed cur_score s Hb Hs) as Hstep.
  unfold bind.
  destruct (coordinate_step T alpha c changed cur_score s)
    as [[changed' cur_score'] s'|e s'|s']; simpl in *; [|done..].
  by apply IH.
Qed.

Lemma rounds_loop_started (fuel : nat) :
  ∀ (decay_rate alpha cur_score : Q) (rounds : nat) (s : state),
    started_within (budget T) s →
    started_within (budget T)
      (final_state (rounds_loop T fuel decay_rate alpha cur_score rounds s)).
Proof.
  induction fuel as [|fuel' IH]; intros decay_rate alpha cur_score rounds s Hs;
    simpl; [done|].
  unfold bind at 1. unfold get_cost at 1.
  destruct (cost s <? budget T); [|done].
  unfold bind at 1. unfold log_msg at 1. unfold bind at 1.
  match goal with
  | |- context [sweep T alpha (coordinates T) false cur_score ?st] =>
    pose proof (sweep_started alpha (coordinates T) false cur_score st
                  (started_within_logged _ (MsgRound rounds (cost s)) s I Hs))
      as Hsw;
    destruct (sweep T alpha (coordinates T) false cur_score st)
      as [[changed cur_score'] s'|e s'|s']; simpl in *; [|done..]
  end.
  destruct changed; simpl; [by apply IH|].
  unfold bind at 1. unfold get_cost at 1.
  unfold bind at 1. unfold log_msg at 1.
  pose proof (λ m, started_within_logged (budget T) (MsgNewAlpha m (cost s')) s' I Hsw)
    as Hs2.
  destruct (Qltb (alpha * decay_rate) (1 # 1000000)); [apply Hs2|].
  apply IH, Hs2.
Qed.

(** What the check [if self.cost > self.budget: break] does ensure: in a
    run of [tune], every coordinate is started at a cost of at most
    [budget] (not: below [budget]). *)
Lemma tune_started_within_budget (fuel : nat) (kw : kwargs) :
  started_within (budget T) (final_state (tune T generate_configs fuel kw)).
Proof.
  assert (started_within (budget T) fresh) as Hfresh by constructor.
  assert (∀ fuel d a s, log s = [] →
            started_within (budget T) (final_state (search T fuel d a s)))
    as Hsearch.
  { intros f d a s Hl. unfold search. unfold bind at 1.
    unfold evaluate_config at 1. apply rounds_loop_started.
    unfold started_within; simpl. rewrite Hl. constructor. }
  unfold tune, tune_impl.
  destruct (kw_alpha kw) as [alpha|]; [|exact Hfresh].
  destruct (kw_decay_rate kw) as [decay_rate|]; [|exact Hfresh].
  destruct (py_is _ lit_average).
  - unfold bind at 1. unfold bind at 1.
    match goal with
    | |- context [init_average T (coordinates T) ?st] =>
      destruct (init_average_quiet T (coordinates T) st) as (_ & H2 & _);
      destruct (init_average T (coordinates T) st) as [[] s'|e s'|s'];
      simpl in *
    end.
    + by apply Hsearch.
    + unfold started_within. rewrite H2. constructor.
    + unfold started_within. rewrite H2. constructor.
  - destruct (py_is _ lit_random); [|exact Hfresh].
    destruct (generate_configs (search_space T) 1 !! 0) as [cfg|]; [|exact Hfresh].
    unfold bind at 1. by apply Hsearch.
Qed.
End AnyRun.

(** The flat-score run of [tune] drives ["x"] out of its range [[0, 10]]:
    once [x] sits at the upper bound, each round probes and accepts
    [x + 5]. *)
Lemma tune_leaves_range :
  config (final_state (tune T_flat no_random 50 kw_half)) !! "x"
    = Some (Num (800 # 32)) ∧
  (10 < 800 # 32)%Q.
Proof. split; vm_compute; reflexivity. Qed.

(** The caller's side of [line_search]: on a range coordinate the sweep
    stores the returned value, so after [coordinate_step] the coordinate
    holds exactly the value [line_search] returned. *)
Lemma coordinate_step_stores_result (T : tuner) (alpha : Q) (c : string)
    (changed : bool) (cur_score : Q) (s : state) (r : Q * Q)
    (changed' : bool) (sc : Q) (s'' : state) :
  search_space T !! c = Some (PDict (Some r)) →
  coordinate_step T alpha c changed cur_score s = Ret (changed', sc) s'' →
  ∃ v s',
    line_search T c alpha 10 cur_score (logged (MsgCoordinate c (cost s)) s)
      = Ret (v, sc) s' ∧
    config s'' = <[c:=Num v]> (config s') ∧
    config s'' !! c = Some (Num v).
Proof.
  intros Hp. unfold coordinate_step. run_body.
  destruct (config s !! c) as [orig_val|]; simpl; [|done].
  rewrite Hp; simpl. unfold logged.
  destruct (line_search T c alpha 10 cur_score _) as [[v sc'] s'|e s'|s'];
    simpl; [|done..].
  intros [= _ <- <-]. exists v, s'. simpl.
  split; [done|]. split; [done|]. apply lookup_insert_eq.
Qed.

(** ** line_search: where the returned value lies *)

Section LineSearchRange.
Variable T : tuner.
Variables (c : string) (minval maxval cur_score : Q).

(** The extension loop hands back the value it was entered with (up to the
    step it takes and undoes) or a value inside the range. *)
Lemma extend_value (n : nat) :
  ∀ (delta cur_val prev_score : Q) (s : state) (v sc : Q) (s' : state),
    extend T c minval maxval cur_score n delta cur_val prev_score s
      = Ret (v, sc) s' →
    (v == cur_val ∨ (minval <= v ∧ v <= maxval))%Q.
Proof.
  induction n as [|n' IH]; intros delta cur_val prev_score s v sc s'; simpl.
  - intros [= <- _ _]. left. reflexivity.
  - destruct (Qltb maxval (cur_val + delta)) eqn:Hhi; simpl.
    { intros [= <- _ _]. left. reflexivity. }
    destruct (Qltb (cur_val + delta) minval) eqn:Hlo; simpl.
    { intros [= <- _ _]. left. reflexivity. }
    apply Qltb_ge in Hhi, Hlo. run_body.
    destruct (worse T _ cur_score).
    + intros [= <- _ _]. left. ring.
    + intros H. apply IH in H as [H|H]; right; [|exact H].
      rewrite H. by split.
Qed.
End LineSearchRange.

(** The value [line_search] returns from a start inside the range: inside
    the range, or one of the two direction probes. *)
Lemma line_search_value_cases (T : tuner) (c : string) (epsilon : Q) (b : nat)
    (cur_score : Q) (s : state) (minval maxval orig v sc : Q) (s' : state) :
  search_space T !! c = Some (PDict (Some (minval, maxval))) →
  config s !! c = Some (Num orig) →
  (minval <= orig)%Q → (orig <= maxval)%Q →
  line_search T c epsilon b cur_score s = Ret (v, sc) s' →
  ((minval <= v ∧ v <= maxval) ∨
   v == orig + epsilon * (maxval - minval) ∨
   v == orig - epsilon * (maxval - minval))%Q.
Proof.
  intros Hp Hc Hlo Hhi. unfold line_search. run_body.
  rewrite Hp; simpl. rewrite Hc; simpl.
  set (delta := (epsilon * (maxval - minval))%Q).
  destruct (Qltb maxval (orig + delta) && Qltb (orig - delta) minval).
  { intros [= <- _ _]. by left. }
  destruct (worse T _ cur_score); simpl.
  - destruct (worse T _ cur_score); simpl.
    + intros [= <- _ _]. by left.
    + intros H. apply extend_value in H as [H|H]; [|by left].
      right; right. rewrite H. ring.
  - intros H. apply extend_value in H as [H|H]; [|by left].
    right; left. exact H.
Qed.

(** X1.  Started inside the range, [line_search] returns a value inside the
    range or one of its two direction probes, [orig + delta] or
    [orig - delta] with [delta = epsilon * (max - min)]: it leaves the range
    by at most one step. *)
Theorem line_search_overshoot (T : tuner) (c : string) (epsilon : Q) (b : nat)
    (cur_score : Q) (s : state) (minval maxval orig v sc : Q) (s' : state) :
  search_space T !! c = Some (PDict (Some (minval, maxval))) →
  config s !! c = Some (Num orig) →
  (minval <= orig)%Q → (orig <= maxval)%Q →
  line_search T c epsilon b cur_score s = Ret (v, sc) s' →
  ((minval <= v ∧ v <= maxval) ∨
   v == orig + epsilon * (maxval - minval) ∨
   v == orig - epsilon * (maxval - minval))%Q.
Proof. apply line_search_value_cases. Qed.

Lemma line_search_overshoot_witness :
  ((0 <= 20 ∧ 20 <= 10) ∨ 20 == 10 + 1 * (10 - 0) ∨ 20 == 10 - 1 * (10 - 0))%Q.
Proof.
  eapply (line_search_overshoot T_flat "x" 1 10 0 (at_x 10) 0 10 10 20 0).
  - reflexivity.
  - reflexivity.
  - vm_compute. discriminate.
  - vm_compute. discriminate.
  - vm_compute. reflexivity.
Defined.

(** X2.  When both probes fit into the range, that is when
    [min + delta <= orig <= max - delta] for the step
    [delta = epsilon * (max - min) >= 0], the value [line_search] returns
    lies within [[min, max]]. *)
Theorem line_search_in_range (T : tuner) (c : string) (epsilon : Q) (b : nat)
    (cur_score : Q) (s : state) (minval maxval orig v sc : Q) (s' : state) :
  search_space T !! c = Some (PDict (Some (minval, maxval))) →
  config s !! c = Some (Num orig) →
  (0 <= epsilon * (maxval - minval))%Q →
  (minval + epsilon * (maxval - minval) <= orig)%Q →
  (orig + epsilon * (maxval - minval) <= maxval)%Q →
  line_search T c epsilon b cur_score s = Ret (v, sc) s' →
  (minval <= v ∧ v <= maxval)%Q.
Proof.
  intros Hp Hc Hd Hlo Hhi H.
  eapply line_search_value_cases in H; [|exact Hp|exact Hc|lra|lra].
  destruct H as [H|[H|H]]; [exact H|..]; rewrite H; split; lra.
Qed.

Lemma line_search_in_range_witness :
  ∃ v, fst <$> returned (line_search T_peak "x" (1 # 10) 10 (-4) (at_x 3))
         = Some v ∧
       (0 <= v ∧ v <= 10)%Q.
Proof.
  eexists. split; [vm_compute; reflexivity|].
  eapply (line_search_in_range T_peak "x" (1 # 10) 10 (-4) (at_x 3) 0 10 3).
  - reflexivity.
  - reflexivity.
  - vm_compute. discriminate.
  - vm_compute. discriminate.
  - vm_compute. discriminate.
  - vm_compute. reflexivity.
Defined.

(** ** line_search: failures and the step that does not fit *)

(** X3.  [line_search] returns exactly when the coordinate is a range
    parameter and the configuration holds a number for it; in every other
    case it raises, and a call that raises has evaluated nothing and left
    the whole state as it was. *)
Theorem line_search_fails_cleanly (T : tuner) (c : string) (epsilon : Q)
    (b : nat) (cur_score : Q) (s : state) :
  (is_Some (returned (line_search T c epsilon b cur_score s)) ↔
   ∃ r x, search_space T !! c = Some (PDict (Some r)) ∧
          config s !! c = Some (Num x)) ∧
  (returned (line_search T c epsilon b cur_score s) = None →
   raised (line_search T c epsilon b cur_score s) = true ∧
   final_state (line_search T c epsilon b cur_score s) = s).
Proof.
  split; [split|].
  - intros [a Ha]. revert Ha. unfold line_search. run_body.
    destruct (search_space T !! c) as [[choices|[[minval maxval]|]|]|];
      simpl; try done.
    destruct (config s !! c) as [[orig_val|str]|]; simpl; try done.
    intros _. eauto.
  - intros (r & x & Hp & Hx).
    destruct (line_search_returns T c epsilon b cur_score s r x Hp Hx)
      as (v & sc & s' & ->). by eexists.
  - pose proof (line_search_spec T c epsilon b cur_score s) as [_ H].
    destruct (line_search T c epsilon b cur_score s) as [[v sc] s'|e s'|s'];
      simpl; done.
Qed.

Lemma extend_cost_mono (T : tuner) (c : string) (minval maxval cur_score : Q)
    (n : nat) :
  ∀ (delta cur_val prev_score : Q) (s : state),
    cost s ≤ cost (final_state
                     (extend T c minval maxval cur_score n delta cur_val
                        prev_score s)).
Proof.
  induction n as [|n' IH]; intros delta cur_val prev_score s; simpl; [done|].
  destruct (Qltb maxval (cur_val + delta) || Qltb (cur_val + delta) minval);
    [done|].
  run_body. destruct (worse T _ cur_score); simpl; [lia|].
  etrans; [|apply IH]. simpl. lia.
Qed.

(** X4.  On a range coordinate holding the number [orig], [line_search]
    spends no evaluation exactly when the step fits on neither side
    ([orig + delta > max] and [orig - delta < min]); it then returns
    [(orig, cur_score)] with the state untouched.  In every other case it
    evaluates at least once. *)
Theorem line_search_free_iff_too_narrow (T : tuner) (c : string) (epsilon : Q)
    (b : nat) (cur_score : Q) (s : state) (minval maxval orig : Q) :
  search_space T !! c = Some (PDict (Some (minval, maxval))) →
  config s !! c = Some (Num orig) →
  ((maxval < orig + epsilon * (maxval - minval) ∧
    orig - epsilon * (maxval - minval) < minval)%Q →
   line_search T c epsilon b cur_score s = Ret (orig, cur_score) s) ∧
  (¬ (maxval < orig + epsilon * (maxval - minval) ∧
      orig - epsilon * (maxval - minval) < minval)%Q →
   1 ≤ evaluations s (final_state (line_search T c epsilon b cur_score s))).
Proof.
  intros Hp Hc. unfold line_search. run_body.
  rewrite Hp; simpl. rewrite Hc; simpl.
  set (delta := (epsilon * (maxval - minval))%Q).
  destruct (Qltb maxval (orig + delta)) eqn:Hhi;
    destruct (Qltb (orig - delta) minval) eqn:Hlo; simpl;
    try apply Qltb_lt in Hhi; try apply Qltb_lt in Hlo;
    try apply Qltb_ge in Hhi; try apply Qltb_ge in Hlo.
  { split; [done|]. intros Hn. destruct Hn. by split. }
  all: split; [intros [H1 H2]; exfalso; lra|intros _].
  all: unfold evaluations.
  all: destruct (worse T _ cur_score); simpl.
  all: try (destruct (worse T _ cur_score); simpl; [lia|]).
  all: match goal with
       | |- context [extend ?T' ?c' ?lo ?hi ?cs ?n ?d ?cv ?ps ?st] =>
         pose proof (extend_cost_mono T' c' lo hi cs n d cv ps st) as Hmono
       end; simpl in Hmono; lia.
Qed.

Lemma line_search_free_iff_too_narrow_witness :
  line_search T_peak "x" 1 10 0 (at_x 5) = Ret (5%Q, 0%Q) (at_x 5).
Proof.
  destruct (line_search_free_iff_too_narrow T_peak "x" 1 10 0 (at_x 5) 0 10 5
              eq_refl eq_refl) as [H _].
  apply H. split; reflexivity.
Defined.

(** ** The discrete sweep *)

Lemma value_eqb_refl (v : value) : value_eqb v v = true.
Proof. destruct v; simpl; [apply Qeq_bool_refl | apply String.eqb_refl]. Qed.

Lemma better_false_no_worse (T : tuner) (score max_score : Q) :
  better T score max_score = false ↔ no_worse T max_score score.
Proof.
  unfold better, no_worse. destruct (maximize T); simpl.
  - rewrite orb_false_r. apply Qltb_ge.
  - apply Qltb_ge.
Qed.

Lemma better_true_no_worse (T : tuner) (score max_score : Q) :
  better T score max_score = true → no_worse T score max_score.
Proof.
  unfold better, no_worse. destruct (maximize T); simpl.
  - rewrite orb_false_r. intros H%Qltb_lt. by apply Qlt_le_weak.
  - intros H%Qltb_lt. by apply Qlt_le_weak.
Qed.

Lemma no_worse_trans (T : tuner) (x y z : Q) :
  no_worse T x y → no_worse T y z → no_worse T x z.
Proof.
  unfold no_worse. destruct (maximize T); intros H1 H2; by eapply Qle_trans.
Qed.

Lemma better_trans (T : tuner) (x y z : Q) :
  better T x y = true → better T y z = true → better T x z = true.
Proof.
  unfold better. destruct (maximize T); simpl; rewrite ?orb_false_r;
    rewrite !Qltb_lt; intros H1 H2; by eapply Qlt_trans.
Qed.

Lemma tried_cons (orig_val choice : value) (choices : list value) :
  tried orig_val (choice :: choices) =
    if value_eqb choice orig_val then tried orig_val choices
    else choice :: tried orig_val choices.
Proof. unfold tried. simpl. by destruct (value_eqb choice orig_val). Qed.

Section DiscreteSweep.
Variable T : tuner.
Variables (c : string) (orig_val : value) (cfg0 : gmap string value).

(** The loop over the candidates, entered with the accumulators
    [(best_choice, max_score)] in a state whose configuration is [cfg0] up
    to the coordinate [c]. *)
Lemma try_choices_run (choices : list value) :
  ∀ (best_choice : value) (max_score : Q) (s : state),
    (∀ v, <[c:=v]> (config s) = <[c:=v]> cfg0) →
    ∃ b m s',
      try_choices T c orig_val choices best_choice max_score s = Ret (b, m) s' ∧
      cost s' = cost s + length (tried orig_val choices) ∧
      (∀ v, <[c:=v]> (config s') = <[c:=v]> cfg0) ∧
      (tried orig_val choices = [] → config s' = config s) ∧
      ((b = best_choice ∧ m = max_score) ∨
       (b ∈ tried orig_val choices ∧ m = score_at T cfg0 c b ∧
        better T m max_score = true)) ∧
      no_worse T m max_score ∧
      Forall (λ choice, no_worse T m (score_at T cfg0 c choice))
        (tried orig_val choices).
Proof.
  induction choices as [|choice choices' IH]; intros best_choice max_score s Hs.
  { exists best_choice, max_score, s. simpl.
    repeat split; auto using no_worse_refl. }
  simpl try_choices. rewrite tried_cons.
  destruct (value_eqb choice orig_val); [by apply IH|].
  run_body. rewrite (Hs choice). fold (score_at T cfg0 c choice).
  assert (∀ st : state, config st = <[c:=choice]> cfg0 →
            ∀ v, <[c:=v]> (config st) = <[c:=v]> cfg0) as Hnext.
  { intros st -> v. apply insert_insert_eq. }
  destruct (better T (score_at T cfg0 c choice) max_score) eqn:Hb.
  - edestruct (IH choice (score_at T cfg0 c choice)) as
      (b & m & s' & -> & Hcost & Hagree & _ & Hbm & Hm & Hall);
      [apply Hnext; reflexivity|].
    exists b, m, s'. simpl in Hcost.
    split; [done|]. split; [simpl; lia|]. split; [done|].
    split; [done|]. split; [|split].
    + right. destruct Hbm as [[-> ->]|(Hin & -> & Hbt)].
      * split; [by left|]. by split.
      * split; [by right|]. split; [done|]. by eapply better_trans.
    + eapply no_worse_trans; [exact Hm|]. by apply better_true_no_worse.
    + by constructor.
  - edestruct (IH best_choice max_score) as
      (b & m & s' & -> & Hcost & Hagree & _ & Hbm & Hm & Hall);
      [apply Hnext; reflexivity|].
    exists b, m, s'. simpl in Hcost.
    split; [done|]. split; [simpl; lia|]. split; [done|].
    split; [done|]. split; [|split].
    + destruct Hbm as [[-> ->]|(Hin & -> & Hbt)]; [by left|].
      right. split; [by right|]. by split.
    + done.
    + constructor; [|done]. eapply no_worse_trans; [exact Hm|].
      by apply better_false_no_worse.
Qed.
End DiscreteSweep.

Lemma tried_elem (orig_val choice : value) (choices : list value) :
  choice ∈ tried orig_val choices →
  choice ∈ choices ∧ value_eqb choice orig_val = false.
Proof.
  unfold tried. rewrite !list_elem_of_In, filter_In, negb_true_iff.
  by intros [? ?].
Qed.

(** One step of the sweep on a list parameter whose coordinate holds
    [orig_val]. *)
Lemma coordinate_step_discrete_run (T : tuner) (alpha : Q) (c : string)
    (changed : bool) (cur_score : Q) (s : state) (choices : list value)
    (orig_val : value) :
  search_space T !! c = Some (PList choices) →
  config s !! c = Some orig_val →
  ∃ changed' m s',
    coordinate_step T alpha c changed cur_score s = Ret (changed', m) s' ∧
    cost s' = cost s + length (tried orig_val choices) ∧
    (∀ k, k ≠ c → config s' !! k = config s !! k) ∧
    ((m = cur_score ∧ config s' = config s ∧ changed' = changed) ∨
     (∃ b, b ∈ tried orig_val choices ∧ config s' = <[c:=b]> (config s) ∧
           m = eval_fn T (config s') ∧ better T m cur_score = true ∧
           changed' = true)) ∧
    Forall (λ choice, no_worse T m (score_at T (config s) c choice))
      (tried orig_val choices).
Proof.
  intros Hp Hc. unfold coordinate_step. run_body.
  rewrite Hc; simpl. rewrite Hp; simpl.
  match goal with
  | |- context [try_choices T c orig_val choices orig_val cur_score ?st] =>
    destruct (try_choices_run T c orig_val (config s) choices orig_val
                cur_score st)
      as (b & m & s1 & -> & Hcost & Hagree & _ & Hbm & _ & Hall); [done|]
  end.
  simpl in *. eexists _, m, _. split; [reflexivity|]. simpl.
  split; [done|]. split; [|split; [|done]].
  - intros k Hk. rewrite lookup_insert_ne by done.
    pose proof (f_equal (λ cfg : gmap string value, cfg !! k) (Hagree orig_val))
      as Hk'. simpl in Hk'. by rewrite !lookup_insert_ne in Hk' by done.
  - rewrite (Hagree b). destruct Hbm as [[-> ->]|(Hin & -> & Hbt)].
    + left. rewrite value_eqb_refl. simpl. split; [done|].
      split; [|done]. by apply insert_id.
    + right. exists b. destruct (tried_elem _ _ _ Hin) as [_ ->]. simpl.
      by repeat split.
Qed.

(** X5.  The sweep of a list parameter always completes, evaluates exactly
    the candidates that differ from the coordinate's current value (one
    evaluation each, the current value is not evaluated again) and changes
    no other coordinate. *)
Theorem discrete_sweep_evaluations (T : tuner) (alpha : Q) (c : string)
    (changed : bool) (cur_score : Q) (s : state) (choices : list value)
    (orig_val : value) :
  search_space T !! c = Some (PList choices) →
  config s !! c = Some orig_val →
  ∃ r s',
    coordinate_step T alpha c changed cur_score s = Ret r s' ∧
    evaluations s s' = length (tried orig_val choices) ∧
    (∀ k, k ≠ c → config s' !! k = config s !! k).
Proof.
  intros Hp Hc.
  destruct (coordinate_step_discrete_run T alpha c changed cur_score s choices
              orig_val Hp Hc) as (changed' & m & s' & He & Hcost & Hfr & _).
  exists (changed', m), s'. split; [done|]. split; [|done].
  unfold evaluations. lia.
Qed.

(** X6.  The sweep of a list parameter keeps the best candidate.  Either no
    candidate is strictly better than [cur_score], and the configuration,
    the score and the [changed] flag are as before; or the coordinate is
    set to a candidate that differs from the old value, [changed] is set,
    and the new score is the score of the new configuration and strictly
    better than [cur_score].  In both cases the new score is no worse than
    the score of any candidate tried. *)
Theorem discrete_sweep_keeps_best (T : tuner) (alpha : Q) (c : string)
    (changed : bool) (cur_score : Q) (s : state) (choices : list value)
    (orig_val : value) (changed' : bool) (m : Q) (s' : state) :
  search_space T !! c = Some (PList choices) →
  config s !! c = Some orig_val →
  coordinate_step T alpha c changed cur_score s = Ret (changed', m) s' →
  ((m = cur_score ∧ config s' = config s ∧ changed' = changed) ∨
   (∃ b, b ∈ tried orig_val choices ∧ config s' = <[c:=b]> (config s) ∧
         m = eval_fn T (config s') ∧ better T m cur_score = true ∧
         changed' = true)) ∧
  Forall (λ choice, no_worse T m (score_at T (config s) c choice))
    (tried orig_val choices).
Proof.
  intros Hp Hc He.
  destruct (coordinate_step_discrete_run T alpha c changed cur_score s choices
              orig_val Hp Hc) as (changed1 & m1 & s1 & He1 & _ & _ & H1 & H2).
  rewrite He in He1. injection He1 as -> -> ->. by split.
Qed.

Lemma discrete_sweep_evaluations_witness :
  ∃ r s',
    coordinate_step T_modes (1 # 2) "mode" false 1 at_mode_A = Ret r s' ∧
    evaluations at_mode_A s' = 2 ∧
    (∀ k, k ≠ "mode" → config s' !! k = config at_mode_A !! k).
Proof.
  exact (discrete_sweep_evaluations T_modes (1 # 2) "mode" false 1 at_mode_A
           [Str "A"; Str "B"; Str "C"] (Str "A") eq_refl eq_refl).
Defined.

Lemma discrete_sweep_keeps_best_witness :
  config (final_state (coordinate_step T_modes (1 # 2) "mode" false 1 at_mode_A))
    !! "mode" = Some (Str "B").
Proof.
  destruct (discrete_sweep_keeps_best T_modes (1 # 2) "mode" false 1 at_mode_A
              [Str "A"; Str "B"; Str "C"] (Str "A") true 5
              (final_state
                 (coordinate_step T_modes (1 # 2) "mode" false 1 at_mode_A))
              eq_refl eq_refl) as [[(H & _)|(b & Hb & Hcfg & Hm & _)] _].
  - vm_compute. reflexivity.
  - discriminate H.
  - rewrite Hcfg in Hm |- *. rewrite lookup_insert_eq. f_equal.
    apply tried_elem in Hb as [Hb _].
    repeat (apply elem_of_cons in Hb as [->|Hb]); try done.
    by apply elem_of_nil in Hb.
Defined.

(** ** A round of the sweep *)

Lemma coordinate_step_no_worse (T : tuner) (alpha : Q) (c : string)
    (changed : bool) (cur_score : Q) (s : state) (changed' : bool) (m : Q)
    (s' : state) :
  coordinate_step T alpha c changed cur_score s = Ret (changed', m) s' →
  no_worse T m cur_score.
Proof.
  destruct (config s !! c) as [orig_val|] eqn:Hc;
    [|unfold coordinate_step; run_body; by rewrite Hc].
  destruct (search_space T !! c) as [[choices|[r|]|]|] eqn:Hp.
  - intros He.
    destruct (coordinate_step_discrete_run T alpha c changed cur_score s choices
                orig_val Hp Hc) as (ch1 & m1 & s1 & He1 & _ & _ & H1 & _).
    rewrite He in He1. injection He1 as -> -> ->.
    destruct H1 as [(-> & _)|(b & _ & _ & _ & Hb & _)];
      [apply no_worse_refl | by apply better_true_no_worse].
  - unfold coordinate_step. run_body. rewrite Hc; simpl. rewrite Hp; simpl.
    match goal with
    | |- context [line_search T c alpha 10 cur_score ?st] =>
      pose proof (line_search_spec T c alpha 10 cur_score st) as [_ Hs];
      destruct (line_search T c alpha 10 cur_score st) as [[v sc] s1|e s1|s1]
    end; simpl; [|done..].
    by intros [= _ <- _].
  - unfold coordinate_step. run_body. rewrite Hc; simpl. rewrite Hp; simpl.
    intros [= _ <- _]. apply no_worse_refl.
  - unfold coordinate_step. run_body. rewrite Hc; simpl. rewrite Hp; simpl.
    intros [= _ <- _]. apply no_worse_refl.
  - unfold coordinate_step. run_body. rewrite Hc; simpl. by rewrite Hp.
Qed.

(** X7.  A round never worsens the current score: whatever the search space
    and wherever the round stops, the score [sweep] hands back is no worse,
    under the optimization direction, than the score it was given. *)
Theorem sweep_no_worse (T : tuner) (alpha : Q) (coords : list string)
    (changed : bool) (cur_score : Q) (s : state) (changed' : bool) (m : Q)
    (s' : state) :
  sweep T alpha coords changed cur_score s = Ret (changed', m) s' →
  no_worse T m cur_score.
Proof.
  revert changed cur_score s.
  induction coords as [|c coords' IH]; intros changed cur_score s; simpl.
  { intros [= _ <- _]. apply no_worse_refl. }
  unfold bind at 1. unfold get_cost at 1.
  destruct (budget T <? cost s).
  { intros [= _ <- _]. apply no_worse_refl. }
  unfold bind.
  destruct (coordinate_step T alpha c changed cur_score s)
    as [[changed1 m1] s1|e s1|s1] eqn:Hstep; [|done..].
  intros H. apply IH in H. eapply no_worse_trans; [exact H|].
  by eapply coordinate_step_no_worse.
Qed.

Lemma sweep_no_worse_witness :
  ∃ m, snd <$> returned (sweep T_modes (1 # 2) (coordinates T_modes) false 1
                           at_mode_A) = Some m ∧
       no_worse T_modes m 1.
Proof.
  eexists. split; [vm_compute; reflexivity|].
  eapply (sweep_no_worse T_modes (1 # 2) (coordinates T_modes) false 1 at_mode_A).
  vm_compute. reflexivity.
Defined.

(** ** The midpoint initializer *)

Lemma list_free_lookup (T : tuner) (c : string) (p : param) :
  list_free T = true → search_space T !! c = Some p → is_list p = false.
Proof.
  unfold list_free. rewrite forallb_forall. intros Hall Hc.
  apply negb_true_iff, Hall, list_elem_of_In, list_elem_of_fmap.
  exists (c, p). split; [done|]. by apply elem_of_map_to_list.
Qed.

Lemma continuous_only_list_free (T : tuner) :
  continuous_only T = true → list_free T = true.
Proof.
  unfold continuous_only, list_free. rewrite !forallb_forall.
  intros H p Hp. apply H in Hp. by destruct p as [|[|]|].
Qed.

(** The initializer loop over [coords], none of which is a list parameter:
    it returns, and a coordinate of [coords] that is a range holds its
    midpoint afterwards; everything else is as before. *)
Lemma init_average_run (T : tuner) (coords : list string) :
  ∀ s : state,
    (∀ c, c ∈ coords → ∃ p, search_space T !! c = Some p ∧ is_list p = false) →
    ∃ s',
      init_average T coords s = Ret tt s' ∧
      cost s' = cost s ∧ best s' = best s ∧ log s' = log s ∧
      stdout s' = stdout s ∧
      ∀ c, config s' !! c =
             match (if decide (c ∈ coords)
                    then search_space T !! c ≫= midpoint else None) with
             | Some v => Some v
             | None => config s !! c
             end.
Proof.
  induction coords as [|c0 coords' IH]; intros s Hkeys.
  { exists s. repeat split; try done. }
  destruct (Hkeys c0) as (p & Hp & Hl); [by left|].
  assert (∀ c, c ∈ coords' →
            ∃ p, search_space T !! c = Some p ∧ is_list p = false) as Hkeys'.
  { intros c Hc. apply Hkeys. by right. }
  simpl. run_body. rewrite Hp; simpl.
  assert (∀ s1 : state,
            cost s1 = cost s → best s1 = best s → log s1 = log s →
            stdout s1 = stdout s →
            (∀ c, config s1 !! c =
                    if decide (c = c0)
                    then match midpoint p with
                         | Some v => Some v
                         | None => config s !! c
                         end
                    else config s !! c) →
            ∃ s',
              init_average T coords' s1 = Ret tt s' ∧
              cost s' = cost s ∧ best s' = best s ∧ log s' = log s ∧
              stdout s' = stdout s ∧
              ∀ c, config s' !! c =
                     match (if decide (c ∈ c0 :: coords')
                            then search_space T !! c ≫= midpoint else None) with
                     | Some v => Some v
                     | None => config s !! c
                     end) as Hgo.
  { intros s1 H1 H2 H3 H4 Hcfg.
    destruct (IH s1 Hkeys') as (s' & He & H1' & H2' & H3' & H4' & Hcfg').
    exists s'. split; [done|]. rewrite H1', H2', H3', H4'.
    repeat split; try done. intros c. rewrite Hcfg', Hcfg.
    destruct (decide (c = c0)) as [->|Hne].
    - rewrite Hp; simpl.
      destruct (decide (c0 ∈ c0 :: coords')) as [_|Hn]; [|destruct Hn; by left].
      destruct (decide (c0 ∈ coords')); by destruct (midpoint p).
    - destruct (decide (c ∈ coords')) as [Hin|Hnin];
        destruct (decide (c ∈ c0 :: coords')) as [Hin'|Hnin']; try done.
      + destruct Hnin'. by right.
      + apply elem_of_cons in Hin' as [?|?]; done. }
  destruct p as [choices|[[minval maxval]|]|]; try discriminate Hl; simpl.
  - apply Hgo; simpl; try done. intros c.
    destruct (decide (c = c0)) as [->|Hne];
      [apply lookup_insert_eq | by apply lookup_insert_ne].
  - apply Hgo; try done. intros c. by destruct (decide (c = c0)).
  - apply Hgo; try done. intros c. by destruct (decide (c = c0)).
Qed.

(** The initializer loop over all coordinates, from the empty
    configuration. *)
Lemma init_average_from_empty (T : tuner) (s : state) :
  list_free T = true →
  config s = ∅ →
  ∃ s',
    init_average T (coordinates T) s = Ret tt s' ∧
    cost s' = cost s ∧
    ∀ c, config s' !! c = search_space T !! c ≫= midpoint.
Proof.
  intros Hfree Hempty.
  destruct (init_average_run T (coordinates T) s) as (s' & He & Hc & _ & _ & _ & Hcfg).
  { intros c [p Hp]%coordinates_spec. exists p. split; [done|].
    by eapply list_free_lookup. }
  exists s'. split; [done|]. split; [done|]. intros c. rewrite Hcfg.
  destruct (decide (c ∈ coordinates T)) as [Hin|Hnin].
  - destruct (search_space T !! c ≫= midpoint); [done|].
    by rewrite Hempty, lookup_empty.
  - rewrite Hempty, lookup_empty.
    destruct (search_space T !! c) as [p|] eqn:Hp; [|done].
    destruct Hnin. apply coordinates_spec. by rewrite Hp.
Qed.

(** X8.  Over a search space without list parameters the midpoint
    initializer, started on the empty configuration, completes without an
    evaluation and builds exactly this configuration: every range
    parameter is set to [(max + min) / 2] and no other key is present. *)
Theorem init_average_midpoints (T : tuner) (s : state) :
  list_free T = true →
  config s = ∅ →
  ∃ s',
    init_average T (coordinates T) s = Ret tt s' ∧
    cost s' = cost s ∧
    ∀ c, config s' !! c = search_space T !! c ≫= midpoint.
Proof. apply init_average_from_empty. Qed.

Lemma init_average_midpoints_witness :
  ∃ s',
    init_average T_ab (coordinates T_ab) fresh = Ret tt s' ∧
    cost s' = cost fresh ∧
    ∀ c, config s' !! c = search_space T_ab !! c ≫= midpoint.
Proof.
  apply (init_average_midpoints T_ab fresh); reflexivity.
Defined.

(** ** Runs over a continuous search space never raise *)

Section ContinuousNoRaise.
Variable T : tuner.
Hypothesis Hcont : continuous_only T = true.

Lemma coordinate_step_continuous (alpha : Q) (c : string) (changed : bool)
    (cur_score : Q) (s : state) :
  is_Some (search_space T !! c) → numeric T s →
  ∃ r s', coordinate_step T alpha c changed cur_score s = Ret r s' ∧
          numeric T s'.
Proof.
  intros [p Hp] Hnum.
  pose proof (continuous_only_lookup T c p Hcont Hp) as Hr.
  destruct p as [choices|[r|]|]; try discriminate Hr.
  destruct (Hnum c r Hp) as [x Hx].
  unfold coordinate_step. run_body. rewrite Hx; simpl. rewrite Hp; simpl.
  match goal with
  | |- context [line_search T c alpha 10 cur_score ?st] =>
    pose proof (line_search_spec T c alpha 10 cur_score st) as [Hs _];
    destruct (line_search_returns T c alpha 10 cur_score st r x Hp Hx)
      as (v & sc & s1 & He)
  end.
  rewrite He in Hs |- *. simpl in *. eexists _, _. split; [reflexivity|].
  intros c' r' Hp'. simpl. destruct (decide (c' = c)) as [->|Hne].
  - exists v. apply lookup_insert_eq.
  - rewrite lookup_insert_ne by done.
    destruct Hs as (_ & _ & Hfr & _). rewrite Hfr by done. by eapply Hnum.
Qed.

Lemma sweep_continuous (alpha : Q) (coords : list string) :
  ∀ (changed : bool) (cur_score : Q) (s : state),
    (∀ c, c ∈ coords → is_Some (search_space T !! c)) → numeric T s →
    ∃ r s', sweep T alpha coords changed cur_score s = Ret r s' ∧ numeric T s'.
Proof.
  induction coords as [|c coords' IH]; intros changed cur_score s Hkeys Hnum;
    simpl.
  { by eexists _, _. }
  unfold bind at 1. unfold get_cost at 1.
  destruct (budget T <? cost s); [by eexists _, _|].
  destruct (coordinate_step_continuous alpha c changed cur_score s)
    as ([changed1 m1] & s1 & He & Hnum1); [apply Hkeys; by left | done |].
  unfold bind. rewrite He. apply IH; [|done].
  intros c' Hc'. apply Hkeys. by right.
Qed.

Lemma rounds_loop_continuous (fuel : nat) :
  ∀ (decay_rate alpha cur_score : Q) (rounds : nat) (s : state),
    numeric T s →
    raised (rounds_loop T fuel decay_rate alpha cur_score rounds s) = false.
Proof.
  induction fuel as [|fuel' IH]; intros decay_rate alpha cur_score rounds s Hnum;
    simpl; [done|].
  unfold bind at 1. unfold get_cost at 1.
  destruct (cost s <? budget T); [|done].
  unfold bind at 1. unfold log_msg at 1. unfold bind at 1.
  match goal with
  | |- context [sweep T alpha (coordinates T) false cur_score ?st] =>
    destruct (sweep_continuous alpha (coordinates T) false cur_score st)
      as ([changed m] & s1 & -> & Hnum1);
      [intros c Hc; by apply coordinates_spec | exact Hnum |]
  end.
  destruct changed; simpl; [by apply IH|].
  unfold bind at 1. unfold get_cost at 1.
  unfold bind at 1. unfold log_msg at 1.
  destruct (Qltb (alpha * decay_rate) (1 # 1000000)); [done|].
  by apply IH.
Qed.
End ContinuousNoRaise.

(** X9.  Over a search space of range parameters only, a run of [tune] with
    [alpha] and [decay_rate] supplied and the midpoint initializer selected
    never raises: every coordinate holds a number from the first round on,
    so neither the KeyError of a missing coordinate nor the TypeError of a
    non-numeric one can occur. *)
Theorem tune_continuous_never_raises (T : tuner)
    (generate_configs : gmap string param → nat → list (gmap string value))
    (fuel : nat) (kw : kwargs) (alpha decay_rate : Q) :
  continuous_only T = true →
  kw_alpha kw = Some alpha →
  kw_decay_rate kw = Some decay_rate →
  selects_average kw = true →
  raised (tune T generate_configs fuel kw) = false.
Proof.
  intros Hcont Ha Hd Hsel. unfold tune, tune_impl. rewrite Ha, Hd.
  unfold selects_average in Hsel.
  assert (py_is match kw_init_method kw with Some m => m | None => lit_average end
            lit_average = true) as ->.
  { by destruct (kw_init_method kw). }
  unfold bind at 1. unfold bind at 1.
  match goal with
  | |- context [init_average T (coordinates T) ?st] =>
    destruct (init_average_from_empty T st) as (s1 & -> & _ & Hcfg);
      [by apply continuous_only_list_free | reflexivity |]
  end.
  unfold search. unfold bind at 1. unfold evaluate_config at 1.
  apply rounds_loop_continuous; [done|].
  intros c [minval maxval] Hp. simpl. rewrite Hcfg, Hp. simpl. eauto.
Qed.

Lemma tune_continuous_never_raises_witness :
  raised (tune T_ab no_random 50 kw_half) = false.
Proof.
  by apply (tune_continuous_never_raises T_ab no_random 50 kw_half (1 # 2) (1 # 2)).
Defined.

(** ** Termination of the rounds loop *)

Lemma line_search_same_or_costs (T : tuner) (c : string) (epsilon : Q)
    (b : nat) (cur_score : Q) (s : state) (orig v sc : Q) (s' : state) :
  config s !! c = Some (Num orig) →
  line_search T c epsilon b cur_score s = Ret (v, sc) s' →
  v = orig ∨ cost s < cost s'.
Proof.
  intros Hc. unfold line_search. run_body.
  destruct (search_space T !! c) as [[choices|[[minval maxval]|]|]|];
    simpl; try done.
  rewrite Hc; simpl.
  set (delta := (epsilon * (maxval - minval))%Q).
  destruct (Qltb maxval (orig + delta) && Qltb (orig - delta) minval).
  { intros [= <- _ _]. by left. }
  destruct (worse T _ cur_score); simpl.
  - destruct (worse T _ cur_score); simpl.
    + intros [= <- _ _]. by left.
    + intros H. right.
      match type of H with
      | extend ?T' ?c' ?lo ?hi ?cs ?n ?d ?cv ?ps ?st = _ =>
        pose proof (extend_cost_mono T' c' lo hi cs n d cv ps st) as Hmono
      end.
      rewrite H in Hmono. simpl in Hmono. lia.
  - intros H. right.
    match type of H with
    | extend ?T' ?c' ?lo ?hi ?cs ?n ?d ?cv ?ps ?st = _ =>
      pose proof (extend_cost_mono T' c' lo hi cs n d cv ps st) as Hmono
    end.
    rewrite H in Hmono. simpl in Hmono. lia.
Qed.

Lemma line_search_not_number (T : tuner) (c : string) (epsilon : Q) (b : nat)
    (cur_score : Q) (s : state) (r : Q * Q) (str : string) :
  search_space T !! c = Some (PDict (Some r)) →
  config s !! c = Some (Str str) →
  line_search T c epsilon b cur_score s = Raise TypeError s.
Proof.
  intros Hp Hc. unfold line_search. run_body. rewrite Hp; simpl.
  destruct r as [minval maxval]. by rewrite Hc.
Qed.

Section Progress.
Variable T : tuner.

(** One coordinate: the step ends (it takes no fuel), the cost does not go
    down, and the [changed] flag is only raised by a step that evaluated. *)
Lemma coordinate_step_progress (alpha : Q) (c : string) (changed : bool)
    (cur_score : Q) (s : state) :
  finished (coordinate_step T alpha c changed cur_score s) = true ∧
  cost s ≤ cost (final_state (coordinate_step T alpha c changed cur_score s)) ∧
  ∀ changed' m s',
    coordinate_step T alpha c changed cur_score s = Ret (changed', m) s' →
    changed' = changed ∨ cost s < cost s'.
Proof.
  destruct (config s !! c) as [orig_val|] eqn:Hc;
    [|unfold coordinate_step; run_body; by rewrite Hc].
  destruct (search_space T !! c) as [[choices|[r|]|]|] eqn:Hp.
  - destruct (coordinate_step_discrete_run T alpha c changed cur_score s choices
                orig_val Hp Hc) as (ch1 & m1 & s1 & -> & Hcost & _ & H1 & _).
    simpl. split; [done|]. split; [lia|].
    intros changed' m s' [= <- <- <-].
    destruct H1 as [(_ & _ & ->)|(b & Hb & _)]; [by left|right].
    destruct (tried orig_val choices); [by apply elem_of_nil in Hb|].
    simpl in Hcost. lia.
  - unfold coordinate_step. run_body. rewrite Hc; simpl. rewrite Hp; simpl.
    destruct orig_val as [orig|str].
    2: { erewrite line_search_not_number by done. by simpl. }
    match goal with
    | |- context [line_search T c alpha 10 cur_score ?st] =>
      pose proof (line_search_spec T c alpha 10 cur_score st) as [Hs Ho];
      pose proof (λ v sc s', line_search_same_or_costs T c alpha 10
                               cur_score st orig v sc s' Hc) as Hsame;
      destruct (line_search T c alpha 10 cur_score st) as [[v sc] s1|e s1|s1]
    end; try done; destruct Hs as (Hs & _); simpl in *.
    + split; [done|]. split; [done|].
      intros changed' m s' [= <- <- <-]. simpl.
      destruct (Hsame v sc s1 eq_refl) as [->|Hlt]; [|by right].
      left. by rewrite Qeq_bool_refl.
    + by split.
  - unfold coordinate_step. run_body. rewrite Hc; simpl. rewrite Hp; simpl.
    split; [done|]. split; [done|]. intros ? ? ? [= <- _ _]. by left.
  - unfold coordinate_step. run_body. rewrite Hc; simpl. rewrite Hp; simpl.
    split; [done|]. split; [done|]. intros ? ? ? [= <- _ _]. by left.
  - unfold coordinate_step. run_body. rewrite Hc; simpl. by rewrite Hp.
Qed.

Lemma sweep_progress (alpha : Q) (coords : list string) :
  ∀ (changed : bool) (cur_score : Q) (s : state),
    finished (sweep T alpha coords changed cur_score s) = true ∧
    cost s ≤ cost (final_state (sweep T alpha coords changed cur_score s)) ∧
    ∀ changed' m s',
      sweep T alpha coords changed cur_score s = Ret (changed', m) s' →
      changed' = changed ∨ cost s < cost s'.
Proof.
  induction coords as [|c coords' IH]; intros changed cur_score s; simpl.
  { unfold ret. split; [done|]. split; [done|]. intros ? ? ? [= <- _ _]. by left. }
  cbv beta iota zeta delta [bind get_cost ret].
  destruct (budget T <? cost s); simpl.
  { split; [done|]. split; [done|]. intros ? ? ? [= <- _ _]. by left. }
  destruct (coordinate_step_progress alpha c changed cur_score s)
    as (Hfin & Hmono & Hch).
  destruct (coordinate_step T alpha c changed cur_score s)
    as [[changed1 m1] s1|e s1|s1]; simpl in *; try done.
  destruct (IH changed1 m1 s1) as (Hfin' & Hmono' & Hch').
  split; [done|]. split; [lia|].
  intros changed' m s' He. rewrite He in Hmono'. simpl in Hmono'.
  apply Hch' in He.
  destruct (Hch changed1 m1 s1 eq_refl) as [->|Hlt]; [|right; lia].
  destruct He as [->|Hlt]; [by left | right; lia].
Qed.
End Progress.

Lemma decayed_succ (decay_rate : Q) (j : nat) (alpha : Q) :
  decayed decay_rate (S j) alpha = decayed decay_rate j (alpha * decay_rate)%Q.
Proof.
  unfold decayed.
  exact (Nat.iter_succ_r j (λ a, (a * decay_rate)%Q) alpha).
Qed.

Lemma init_average_finished (T : tuner) (coords : list string) :
  ∀ s : state, finished (init_average T coords s) = true.
Proof.
  induction coords as [|c coords' IH]; intros s; simpl; [done|].
  run_body. destruct (search_space T !! c) as [p|]; simpl; [|done].
  destruct p as [[|choice choices]|[[minval maxval]|]|]; simpl;
    try done; apply IH.
Qed.

(** The rounds loop ends once it has fuel for the rounds that can still
    cost an evaluation, [budget - cost], plus the [j] rounds after which
    the decayed [alpha] is below the threshold. *)
Lemma rounds_loop_finishes (T : tuner) (fuel : nat) :
  ∀ (j : nat) (decay_rate alpha cur_score : Q) (rounds : nat) (s : state),
    1 ≤ j →
    Qltb (decayed decay_rate j alpha) (1 # 1000000) = true →
    budget T - cost s + j ≤ fuel →
    finished (rounds_loop T fuel decay_rate alpha cur_score rounds s) = true.
Proof.
  induction fuel as [|fuel' IH];
    intros j decay_rate alpha cur_score rounds s Hj Hdec Hfuel; [lia|].
  simpl. unfold bind at 1. unfold get_cost at 1.
  destruct (cost s <? budget T) eqn:Hb; [|done].
  apply Nat.ltb_lt in Hb.
  unfold bind at 1. unfold log_msg at 1. unfold bind at 1.
  match goal with
  | |- context [sweep T alpha (coordinates T) false cur_score ?st] =>
    destruct (sweep_progress T alpha (coordinates T) false cur_score st)
      as (Hfin & Hmono & Hch);
    destruct (sweep T alpha (coordinates T) false cur_score st)
      as [[changed m] s1|e s1|s1]; simpl in *; try done
  end.
  destruct changed; simpl.
  - destruct (Hch true m s1 eq_refl) as [?|Hlt]; [done|].
    apply (IH j); [done..|lia].
  - unfold bind at 1. unfold get_cost at 1.
    unfold bind at 1. unfold log_msg at 1.
    destruct (Qltb (alpha * decay_rate) (1 # 1000000)) eqn:Hthr; [done|].
    destruct j as [|[|j']]; [lia|..].
    + unfold decayed in Hdec. simpl in Hdec. congruence.
    + rewrite decayed_succ in Hdec. apply (IH (S j')); [lia|done|simpl; lia].
Qed.

(** X10.  [tune] terminates whenever repeated decay brings [alpha] below
    the threshold: if [alpha * decay_rate^j < 0.000001] for some [j >= 1],
    the rounds loop runs at most [budget + j] times, whatever the search
    space, the scores and the initializer. *)
Theorem tune_terminates (T : tuner)
    (generate_configs : gmap string param → nat → list (gmap string value))
    (fuel : nat) (kw : kwargs) (alpha decay_rate : Q) (j : nat) :
  kw_alpha kw = Some alpha →
  kw_decay_rate kw = Some decay_rate →
  1 ≤ j →
  Qltb (decayed decay_rate j alpha) (1 # 1000000) = true →
  budget T + j ≤ fuel →
  finished (tune T generate_configs fuel kw) = true.
Proof.
  intros Ha Hd Hj Hdec Hfuel. unfold tune, tune_impl. rewrite Ha, Hd.
  assert (∀ s, finished (search T fuel decay_rate alpha s) = true) as Hsearch.
  { intros s. unfold search. unfold bind at 1. unfold evaluate_config at 1.
    apply (rounds_loop_finishes T fuel j); [done..|simpl; lia]. }
  destruct (py_is _ lit_average).
  - unfold bind at 1. unfold bind at 1.
    match goal with
    | |- context [init_average T (coordinates T) ?st] =>
      pose proof (init_average_finished T (coordinates T) st) as Hinit;
      destruct (init_average T (coordinates T) st) as [[] s1|e s1|s1]
    end; try done; apply Hsearch.
  - destruct (py_is _ lit_random); [|done].
    destruct (generate_configs (search_space T) 1 !! 0) as [cfg|]; [|done].
    unfold bind at 1. apply Hsearch.
Qed.

Lemma tune_terminates_witness :
  finished (tune T_peak no_random 24 kw_half) = true.
Proof.
  apply (tune_terminates T_peak no_random 24 kw_half (1 # 2) (1 # 2) 19);
    [reflexivity | reflexivity | lia | vm_compute; reflexivity | simpl; lia].
Defined.

(** X11.  Over a search space of range parameters only, with the midpoint
    initializer and a decay that brings [alpha] below the threshold after
    [j] rounds, [tune] completes normally: it returns [None] after at most
    [budget + j] rounds and at most [budget + 10] evaluations. *)
Theorem tune_continuous_completes (T : tuner)
    (generate_configs : gmap string param → nat → list (gmap string value))
    (fuel : nat) (kw : kwargs) (alpha decay_rate : Q) (j : nat) :
  continuous_only T = true →
  kw_alpha kw = Some alpha →
  kw_decay_rate kw = Some decay_rate →
  selects_average kw = true →
  1 ≤ j →
  Qltb (decayed decay_rate j alpha) (1 # 1000000) = true →
  budget T + j ≤ fuel →
  returned (tune T generate_configs fuel kw) = Some RNone ∧
  cost (final_state (tune T generate_configs fuel kw)) ≤ budget T + 10.
Proof.
  intros Hcont Ha Hd Hsel Hj Hdec Hfuel.
  split; [|by apply tune_within].
  unfold tune, tune_impl. rewrite Ha, Hd.
  unfold selects_average in Hsel.
  assert (py_is match kw_init_method kw with Some m => m | None => lit_average end
            lit_average = true) as ->.
  { by destruct (kw_init_method kw). }
  unfold bind at 1. unfold bind at 1.
  match goal with
  | |- context [init_average T (coordinates T) ?st] =>
    destruct (init_average_from_empty T st) as (s1 & -> & Hc1 & Hcfg);
      [by apply continuous_only_list_free | reflexivity |]
  end.
  unfold search. unfold bind at 1. unfold evaluate_config at 1.
  match goal with
  | |- returned (rounds_loop T fuel decay_rate alpha ?cs 0 ?st) = _ =>
    pose proof (rounds_loop_continuous T Hcont fuel decay_rate alpha cs 0 st)
      as Hnr;
    pose proof (rounds_loop_finishes T fuel j decay_rate alpha cs 0 st Hj Hdec)
      as Hfin;
    pose proof (rounds_loop_returns_none T fuel decay_rate alpha cs 0 st) as Hnone;
    destruct (rounds_loop T fuel decay_rate alpha cs 0 st) as [v s2|e s2|s2]
  end; simpl in *.
  - by rewrite (Hnone v s2 eq_refl).
  - discriminate Hnr. intros c [minval maxval] Hp. simpl.
    rewrite Hcfg, Hp. simpl. eauto.
  - discriminate Hfin. simpl in Hc1. lia.
Qed.

Lemma tune_continuous_completes_witness :
  returned (tune T_peak no_random 24 kw_half) = Some RNone ∧
  cost (final_state (tune T_peak no_random 24 kw_half)) ≤ budget T_peak + 10.
Proof.
  apply (tune_continuous_completes T_peak no_random 24 kw_half (1 # 2) (1 # 2) 19);
    [reflexivity | reflexivity | reflexivity | reflexivity | lia
    | vm_compute; reflexivity | simpl; lia].
Defined.

(** ** A run that never ends *)

Lemma line_search_too_narrow (T : tuner) (c : string) (epsilon : Q) (b : nat)
    (cur_score : Q) (s : state) (minval maxval orig : Q) :
  search_space T !! c = Some (PDict (Some (minval, maxval))) →
  config s !! c = Some (Num orig) →
  (maxval < orig + epsilon * (maxval - minval))%Q →
  (orig - epsilon * (maxval - minval) < minval)%Q →
  line_search T c epsilon b cur_score s = Ret (orig, cur_score) s.
Proof.
  intros Hp Hc Hhi%Qltb_lt Hlo%Qltb_lt. unfold line_search. run_body.
  rewrite Hp; simpl. rewrite Hc; simpl. by rewrite Hhi, Hlo.
Qed.

Lemma midpoint_too_narrow (alpha minval maxval : Q) :
  (minval < maxval)%Q → (1 # 2 < alpha)%Q →
  (maxval < (maxval + minval) / 2 + alpha * (maxval - minval))%Q ∧
  ((maxval + minval) / 2 - alpha * (maxval - minval) < minval)%Q.
Proof.
  intros Hr Ha.
  assert ((1 # 2) * (maxval - minval) < alpha * (maxval - minval))%Q as Hm.
  { apply Qmult_lt_compat_r; [lra | done]. }
  set (d := (alpha * (maxval - minval))%Q) in *.
  unfold Qdiv. change (/ 2)%Q with (1 # 2)%Q.
  split; lra.
Qed.

Lemma proper_ranges_lookup (T : tuner) (c : string) (minval maxval : Q) :
  proper_ranges T = true →
  search_space T !! c = Some (PDict (Some (minval, maxval))) →
  (minval < maxval)%Q.
Proof.
  unfold proper_ranges. rewrite forallb_forall. intros Hall Hc.
  apply Qltb_lt.
  apply (Hall (PDict (Some (minval, maxval)))), list_elem_of_In, list_elem_of_fmap.
  exists (c, PDict (Some (minval, maxval))). split; [done|].
  by apply elem_of_map_to_list.
Qed.

Section Stuck.
Variable T : tuner.
Hypothesis Hcont : continuous_only T = true.
Hypothesis Hproper : proper_ranges T = true.
Hypothesis Hbudget : 2 ≤ budget T.

Lemma coordinate_step_stuck (alpha : Q) (c : string) (cur_score : Q)
    (s : state) :
  (1 # 2 < alpha)%Q → is_Some (search_space T !! c) → at_midpoints T s →
  ∃ s', coordinate_step T alpha c false cur_score s = Ret (false, cur_score) s' ∧
        at_midpoints T s'.
Proof.
  intros Ha [p Hp] [Hcost Hcfg].
  pose proof (continuous_only_lookup T c p Hcont Hp) as Hr.
  destruct p as [choices|[[minval maxval]|]|]; try discriminate Hr.
  pose proof (Hcfg c) as Hc. rewrite Hp in Hc. simpl in Hc.
  destruct (midpoint_too_narrow alpha minval maxval) as [Hhi Hlo];
    [by eapply proper_ranges_lookup | done |].
  unfold coordinate_step. run_body. rewrite Hc; simpl. rewrite Hp; simpl.
  erewrite line_search_too_narrow; [|exact Hp|exact Hc|exact Hhi|exact Hlo].
  simpl. rewrite Qeq_bool_refl. simpl. eexists. split; [reflexivity|].
  split; [done|]. intros c'. simpl.
  destruct (decide (c' = c)) as [->|Hne].
  - by rewrite lookup_insert_eq, Hp.
  - by rewrite lookup_insert_ne.
Qed.

Lemma sweep_stuck (alpha : Q) (coords : list string) :
  ∀ (cur_score : Q) (s : state),
    (1 # 2 < alpha)%Q →
    (∀ c, c ∈ coords → is_Some (search_space T !! c)) → at_midpoints T s →
    ∃ s', sweep T alpha coords false cur_score s = Ret (false, cur_score) s' ∧
          at_midpoints T s'.
Proof.
  induction coords as [|c coords' IH]; intros cur_score s Ha Hkeys Hs; simpl.
  { by exists s. }
  unfold bind at 1. unfold get_cost at 1.
  destruct (budget T <? cost s) eqn:Hb.
  { apply Nat.ltb_lt in Hb. destruct Hs as [Hcost _]. lia. }
  destruct (coordinate_step_stuck alpha c cur_score s) as (s1 & He & Hs1);
    [done | apply Hkeys; by left | done |].
  unfold bind. rewrite He. apply IH; [done| |done].
  intros c' Hc'. apply Hkeys. by right.
Qed.

Lemma rounds_loop_stuck (decay_rate : Q) (fuel : nat) :
  ∀ (alpha cur_score : Q) (rounds : nat) (s : state),
    (1 # 2 < alpha)%Q → (1 <= decay_rate)%Q → at_midpoints T s →
    ∃ s', rounds_loop T fuel decay_rate alpha cur_score rounds s = OutOfFuel s' ∧
          cost s' = 1.
Proof.
  induction fuel as [|fuel' IH]; intros alpha cur_score rounds s Ha Hd Hs; simpl.
  { exists s. by destruct Hs. }
  cbv beta iota zeta delta [bind log_msg get_cost].
  destruct (cost s <? budget T) eqn:Hb.
  2: { apply Nat.ltb_ge in Hb. destruct Hs as [Hcost _]. lia. }
  match goal with
  | |- context [sweep T alpha (coordinates T) false cur_score ?st] =>
    destruct (sweep_stuck alpha (coordinates T) cur_score st) as (s1 & -> & Hs1);
      [done | intros c Hc; by apply coordinates_spec | exact Hs |]
  end.
  simpl.
  assert (1 # 2 < alpha * decay_rate)%Q as Ha'.
  { assert (alpha * 1 <= alpha * decay_rate)%Q
      by (apply Qmult_le_l; [lra | done]). lra. }
  assert (Qltb (alpha * decay_rate) (1 # 1000000) = false) as ->.
  { apply Qltb_ge. lra. }
  apply IH; [done..|]. by destruct Hs1.
Qed.
End Stuck.

(** X12.  Nothing bounds the number of rounds when [decay_rate >= 1]: over a
    search space of proper ranges ([min < max]), with the midpoint
    initializer, [alpha > 1/2], [decay_rate >= 1] and a budget of at least
    2, the step fits on neither side of any midpoint, so every round costs
    nothing, changes nothing and leaves [alpha] above the threshold; the
    run never ends and the cost stays at 1, below the budget. *)
Theorem tune_never_ends (T : tuner)
    (generate_configs : gmap string param → nat → list (gmap string value))
    (fuel : nat) (kw : kwargs) (alpha decay_rate : Q) :
  continuous_only T = true →
  proper_ranges T = true →
  2 ≤ budget T →
  kw_alpha kw = Some alpha →
  kw_decay_rate kw = Some decay_rate →
  selects_average kw = true →
  (1 # 2 < alpha)%Q →
  (1 <= decay_rate)%Q →
  finished (tune T generate_configs fuel kw) = false ∧
  cost (final_state (tune T generate_configs fuel kw)) = 1.
Proof.
  intros Hcont Hproper Hbudget Ha Hd Hsel Halpha Hdecay.
  unfold tune, tune_impl. rewrite Ha, Hd.
  unfold selects_average in Hsel.
  assert (py_is match kw_init_method kw with Some m => m | None => lit_average end
            lit_average = true) as ->.
  { by destruct (kw_init_method kw). }
  cbv beta iota zeta delta [bind].
  match goal with
  | |- context [init_average T (coordinates T) ?st] =>
    destruct (init_average_from_empty T st) as (s1 & -> & Hc1 & Hcfg);
      [by apply continuous_only_list_free | reflexivity |]
  end.
  unfold search. cbv beta iota zeta delta [bind evaluate_config].
  match goal with
  | |- context [rounds_loop T fuel decay_rate alpha ?cs 0 ?st] =>
    destruct (rounds_loop_stuck T Hcont Hproper Hbudget decay_rate fuel alpha
                cs 0 st) as (s2 & -> & Hc2); try done
  end.
  split; simpl; [simpl in Hc1; lia | done].
Qed.

Lemma tune_never_ends_witness :
  finished (tune T_peak no_random 50 kw_stuck) = false ∧
  cost (final_state (tune T_peak no_random 50 kw_stuck)) = 1.
Proof.
  apply (tune_never_ends T_peak no_random 50 kw_stuck 1 1);
    try reflexivity; [simpl; lia | vm_compute; discriminate].
Defined.

(** ** The budget over any search space *)

Lemma step_bound_overshoot (T : tuner) (c : string) (p : param) :
  search_space T !! c = Some p → step_bound p ≤ overshoot T.
Proof.
  intros Hp. unfold overshoot. apply max_list_elem_of_le, list_elem_of_fmap.
  exists p. split; [done|]. apply list_elem_of_fmap.
  exists (c, p). split; [done|]. by apply elem_of_map_to_list.
Qed.

Section AnyBudget.
Variable T : tuner.

Lemma coordinate_step_cost (alpha : Q) (c : string) (changed : bool)
    (cur_score : Q) (s : state) :
  cost (final_state (coordinate_step T alpha c changed cur_score s))
    ≤ cost s + overshoot T.
Proof.
  destruct (config s !! c) as [orig_val|] eqn:Hc;
    [|unfold coordinate_step; run_body; rewrite Hc; simpl; lia].
  destruct (search_space T !! c) as [p|] eqn:Hp;
    [|unfold coordinate_step; run_body; rewrite Hc; simpl; rewrite Hp; simpl; lia].
  pose proof (step_bound_overshoot T c p Hp) as Hle.
  destruct p as [choices|[r|]|]; simpl in Hle.
  - destruct (coordinate_step_discrete_run T alpha c changed cur_score s choices
                orig_val Hp Hc) as (ch1 & m1 & s1 & -> & Hcost & _).
    simpl. pose proof (filter_length_le (λ choice, negb (value_eqb choice orig_val))
                         choices) as Hf. unfold tried in Hcost. lia.
  - unfold coordinate_step. run_body. rewrite Hc; simpl. rewrite Hp; simpl.
    match goal with
    | |- context [line_search T c alpha 10 cur_score ?st] =>
      pose proof (line_search_spec T c alpha 10 cur_score st) as [Hs _];
      destruct (line_search T c alpha 10 cur_score st) as [[v sc] s1|e s1|s1]
    end; destruct Hs as (_ & Hs & _); simpl in *; lia.
  - unfold coordinate_step. run_body. rewrite Hc; simpl. rewrite Hp; simpl. lia.
  - unfold coordinate_step. run_body. rewrite Hc; simpl. rewrite Hp; simpl. lia.
Qed.

Lemma sweep_cost (alpha : Q) (coords : list string) :
  ∀ (changed : bool) (cur_score : Q) (s : state),
    cost s ≤ Nat.max 1 (budget T + overshoot T) →
    cost (final_state (sweep T alpha coords changed cur_score s))
      ≤ Nat.max 1 (budget T + overshoot T).
Proof.
  induction coords as [|c coords' IH]; intros changed cur_score s Hs; simpl;
    [done|].
  unfold bind at 1. unfold get_cost at 1.
  destruct (budget T <? cost s) eqn:Hb; [done|].
  apply Nat.ltb_ge in Hb.
  pose proof (coordinate_step_cost alpha c changed cur_score s) as Hstep.
  unfold bind.
  destruct (coordinate_step T alpha c changed cur_score s)
    as [[changed1 m1] s1|e s1|s1]; simpl in *; try lia.
  apply IH. lia.
Qed.

Lemma rounds_loop_cost (fuel : nat) :
  ∀ (decay_rate alpha cur_score : Q) (rounds : nat) (s : state),
    cost s ≤ Nat.max 1 (budget T + overshoot T) →
    cost (final_state (rounds_loop T fuel decay_rate alpha cur_score rounds s))
      ≤ Nat.max 1 (budget T + overshoot T).
Proof.
  induction fuel as [|fuel' IH]; intros decay_rate alpha cur_score rounds s Hs;
    simpl; [done|].
  unfold bind at 1. unfold get_cost at 1.
  destruct (cost s <? budget T); [|done].
  unfold bind at 1. unfold log_msg at 1. unfold bind at 1.
  match goal with
  | |- context [sweep T alpha (coordinates T) false cur_score ?st] =>
    pose proof (sweep_cost alpha (coordinates T) false cur_score st Hs) as Hsw;
    destruct (sweep T alpha (coordinates T) false cur_score st)
      as [[changed m] s1|e s1|s1]; simpl in *; try done
  end.
  destruct changed; simpl; [by apply IH|].
  unfold bind at 1. unfold get_cost at 1.
  unfold bind at 1. unfold log_msg at 1.
  destruct (Qltb (alpha * decay_rate) (1 # 1000000)); [done|].
  by apply IH.
Qed.
End AnyBudget.

(** X13.  Whatever the search space, the options and the initializer, a run
    of [tune] never gets beyond [budget + overshoot] evaluations (and the
    one initial evaluation), where [overshoot] is the largest cost of a
    single coordinate: the number of candidates of the longest list
    parameter, or the sub-budget 10 if there is a range parameter. *)
Theorem tune_cost_bound_any (T : tuner)
    (generate_configs : gmap string param → nat → list (gmap string value))
    (fuel : nat) (kw : kwargs) :
  cost (final_state (tune T generate_configs fuel kw))
    ≤ Nat.max 1 (budget T + overshoot T).
Proof.
  assert (∀ d a s, cost s = 0 →
            cost (final_state (search T fuel d a s))
              ≤ Nat.max 1 (budget T + overshoot T)) as Hsearch.
  { intros d a s Hc. unfold search. unfold bind at 1.
    unfold evaluate_config at 1. apply rounds_loop_cost. simpl. lia. }
  unfold tune, tune_impl.
  destruct (kw_alpha kw) as [alpha|]; [|simpl; lia].
  destruct (kw_decay_rate kw) as [decay_rate|]; [|simpl; lia].
  destruct (py_is _ lit_average).
  - unfold bind at 1. unfold bind at 1.
    match goal with
    | |- context [init_average T (coordinates T) ?st] =>
      destruct (init_average_quiet T (coordinates T) st) as (H1 & _);
      destruct (init_average T (coordinates T) st) as [[] s1|e s1|s1];
      simpl in *
    end; [by apply Hsearch | lia..].
  - destruct (py_is _ lit_random); [|simpl; lia].
    destruct (generate_configs (search_space T) 1 !! 0) as [cfg|]; [|simpl; lia].
    unfold bind at 1. by apply Hsearch.
Qed.

(** ** A round that reports no change *)

Lemma value_eqb_trans (a b c : value) :
  value_eqb a b = true → value_eqb b c = true → value_eqb a c = true.
Proof.
  destruct a, b, c; simpl; try done.
  - apply Qeq_bool_trans.
  - rewrite !String.eqb_eq. congruence.
Qed.

Lemma same_values_refl (cfg : gmap string value) : same_values cfg cfg.
Proof. intros k. destruct (cfg !! k); [apply value_eqb_refl | done]. Qed.

Lemma same_values_trans (cfg1 cfg2 cfg3 : gmap string value) :
  same_values cfg1 cfg2 → same_values cfg2 cfg3 → same_values cfg1 cfg3.
Proof.
  intros H12 H23 k. specialize (H12 k). specialize (H23 k).
  destruct (cfg1 !! k), (cfg2 !! k), (cfg3 !! k); try done.
  by eapply value_eqb_trans.
Qed.

Lemma coordinate_step_unchanged (T : tuner) (alpha : Q) (c : string)
    (cur_score : Q) (s : state) (m : Q) (s' : state) :
  coordinate_step T alpha c false cur_score s = Ret (false, m) s' →
  same_values (config s') (config s).
Proof.
  destruct (config s !! c) as [orig_val|] eqn:Hc;
    [|unfold coordinate_step; run_body; by rewrite Hc].
  destruct (search_space T !! c) as [[choices|[r|]|]|] eqn:Hp.
  - intros He.
    destruct (coordinate_step_discrete_run T alpha c false cur_score s choices
                orig_val Hp Hc) as (ch1 & m1 & s1 & He1 & _ & _ & H1 & _).
    rewrite He in He1. injection He1 as <- <- <-.
    destruct H1 as [(_ & -> & _)|(b & _ & _ & _ & _ & ?)]; [|done].
    apply same_values_refl.
  - unfold coordinate_step. run_body. rewrite Hc; simpl. rewrite Hp; simpl.
    match goal with
    | |- context [line_search T c alpha 10 cur_score ?st] =>
      pose proof (line_search_spec T c alpha 10 cur_score st) as [Hs _];
      destruct (line_search T c alpha 10 cur_score st) as [[v sc] s1|e s1|s1]
    end; simpl; [|done..].
    destruct Hs as (_ & _ & Hfr & _). simpl in Hfr.
    destruct orig_val as [orig|str]; [|done].
    destruct (Qeq_bool v orig) eqn:Hv; simpl; [|done].
    intros [= _ <-]. simpl. intros k.
    destruct (decide (k = c)) as [->|Hne].
    + by rewrite lookup_insert_eq, Hc.
    + rewrite lookup_insert_ne, Hfr by done.
      destruct (config s !! k); [apply value_eqb_refl | done].
  - unfold coordinate_step. run_body. rewrite Hc; simpl. rewrite Hp; simpl.
    intros [= _ <-]. apply same_values_refl.
  - unfold coordinate_step. run_body. rewrite Hc; simpl. rewrite Hp; simpl.
    intros [= _ <-]. apply same_values_refl.
  - unfold coordinate_step. run_body. rewrite Hc; simpl. by rewrite Hp.
Qed.

Lemma coordinate_step_changed_stays (T : tuner) (alpha : Q) (c : string)
    (cur_score : Q) (s : state) (changed' : bool) (m : Q) (s' : state) :
  coordinate_step T alpha c true cur_score s = Ret (changed', m) s' →
  changed' = true.
Proof.
  unfold coordinate_step. run_body.
  destruct (config s !! c) as [orig_val|]; simpl; [|done].
  destruct (search_space T !! c) as [[choices|[r|]|]|]; simpl; try done.
  - destruct (try_choices T c orig_val choices orig_val cur_score _)
      as [[b m1] s1|e s1|s1]; simpl; [|done..].
    intros [= <- _ _]. by destruct (negb _).
  - destruct (line_search T c alpha 10 cur_score _) as [[v sc] s1|e s1|s1];
      simpl; [|done..].
    intros [= <- _ _]. by destruct (negb _).
  - by intros [= <- _ _].
  - by intros [= <- _ _].
Qed.

Lemma sweep_changed_stays (T : tuner) (alpha : Q) (coords : list string) :
  ∀ (cur_score : Q) (s : state) (changed' : bool) (m : Q) (s' : state),
    sweep T alpha coords true cur_score s = Ret (changed', m) s' →
    changed' = true.
Proof.
  induction coords as [|c coords' IH]; intros cur_score s changed' m s'; simpl.
  { by intros [= <- _ _]. }
  unfold bind at 1. unfold get_cost at 1.
  destruct (budget T <? cost s); [by intros [= <- _ _]|].
  unfold bind.
  destruct (coordinate_step T alpha c true cur_score s)
    as [[changed1 m1] s1|e s1|s1] eqn:Hstep; [|done..].
  apply coordinate_step_changed_stays in Hstep as ->. apply IH.
Qed.

(** X14.  A round that reports no change has changed nothing: when [sweep]
    is entered with [changed = False] and hands back [False], the
    configuration after the round has the same keys as before and every
    value is [==] to the old one (so [alpha] only decays after a round that
    moved no coordinate). *)
Theorem sweep_unchanged (T : tuner) (alpha : Q) (coords : list string)
    (cur_score : Q) (s : state) (m : Q) (s' : state) :
  sweep T alpha coords false cur_score s = Ret (false, m) s' →
  same_values (config s') (config s).
Proof.
  revert cur_score s.
  induction coords as [|c coords' IH]; intros cur_score s; simpl.
  { intros [= _ <-]. apply same_values_refl. }
  unfold bind at 1. unfold get_cost at 1.
  destruct (budget T <? cost s).
  { intros [= _ <-]. apply same_values_refl. }
  unfold bind.
  destruct (coordinate_step T alpha c false cur_score s)
    as [[changed1 m1] s1|e s1|s1] eqn:Hstep; [|done..].
  destruct changed1.
  - intros H. by apply sweep_changed_stays in H.
  - intros H. apply IH in H. eapply same_values_trans; [exact H|].
    by eapply coordinate_step_unchanged.
Qed.

Lemma sweep_unchanged_witness :
  same_values
    (config (final_state (sweep T_peak (1 # 10) (coordinates T_peak) false 0
                            (at_x 5))))
    (config (at_x 5)).
Proof.
  eapply (sweep_unchanged T_peak (1 # 10) (coordinates T_peak) 0 (at_x 5)).
  vm_compute. reflexivity.
Defined.

(** * VideoIntervalCollection *)

Section VideoIntervalCollectionFacts.
Context {V : Type} `{Countable V}.
Variables (R IL : Type).
Variable IntervalList : list (V * V * V) → IL.
Variable IntervalList_of : IL → IL.
Variable il_set_union : IL → IL → IL.
Variable accessor : R → string → V.

(** The loop of [from_iterable] under a schema that names the three
    fields: it appends the tuples of every video, in order, to what the
    dict held for that video. *)
Lemma from_iterable_loop_groups (video_id_field : string)
    (schema : gmap string string) (f_start f_end f_payload : string)
    (iterable : list R) :
  schema !! "start" = Some f_start →
  schema !! "end" = Some f_end →
  schema !! "payload" = Some f_payload →
  ∀ acc : gmap V (list (V * V * V)),
    ∃ m,
      from_iterable_loop accessor video_id_field schema iterable acc = inr m ∧
      ∀ video_id,
        m !! video_id =
          match acc !! video_id,
                tuples_of accessor video_id_field f_start f_end f_payload
                  video_id iterable with
          | Some tuples, new => Some (tuples ++ new)%list
          | None, [] => None
          | None, new => Some new
          end.
Proof.
  intros Hs He Hp.
  induction iterable as [|row iterable' IH]; intros acc.
  { exists acc. split; [done|]. intros video_id. unfold tuples_of. simpl.
    destruct (acc !! video_id); [by rewrite app_nil_r | done]. }
  simpl. unfold schema_field. rewrite Hs, He, Hp.
  set (t := (accessor row f_start, accessor row f_end, accessor row f_payload)).
  set (vid0 := accessor row video_id_field).
  assert (∀ video_id,
            tuples_of accessor video_id_field f_start f_end f_payload video_id
              (row :: iterable') =
            if decide (vid0 = video_id)
            then t :: tuples_of accessor video_id_field f_start f_end f_payload
                        video_id iterable'
            else tuples_of accessor video_id_field f_start f_end f_payload
                   video_id iterable') as Hcons.
  { intros video_id. unfold tuples_of. simpl. fold vid0.
    destruct (decide (vid0 = video_id)) as [Heq|Hne].
    - by rewrite bool_decide_eq_true_2.
    - by rewrite bool_decide_eq_false_2. }
  destruct (acc !! vid0) as [tuples|] eqn:Hacc.
  - destruct (IH (<[vid0:=(tuples ++ [t])%list]> acc)) as (m & -> & Hm).
    exists m. split; [done|]. intros video_id. rewrite Hm, Hcons.
    destruct (decide (vid0 = video_id)) as [<-|Hne].
    + rewrite lookup_insert_eq, Hacc. by rewrite <- app_assoc.
    + by rewrite lookup_insert_ne.
  - destruct (IH (<[vid0:=[t]]> acc)) as (m & -> & Hm).
    exists m. split; [done|]. intros video_id. rewrite Hm, Hcons.
    destruct (decide (vid0 = video_id)) as [<-|Hne].
    + by rewrite lookup_insert_eq, Hacc.
    + by rewrite lookup_insert_ne.
Qed.

Lemma from_iterable_groups_aux (video_id_field : string)
    (schema : gmap string string) (f_start f_end f_payload : string)
    (iterable : list R) :
  schema !! "start" = Some f_start →
  schema !! "end" = Some f_end →
  schema !! "payload" = Some f_payload →
  ∃ intervals,
    from_iterable IntervalList accessor iterable video_id_field schema
      = inr intervals ∧
    ∀ video_id,
      intervals !! video_id =
        match tuples_of accessor video_id_field f_start f_end f_payload
                video_id iterable with
        | [] => None
        | tuples => Some (IntervalList tuples)
        end.
Proof.
  intros Hs He Hp. unfold from_iterable.
  destruct (from_iterable_loop_groups video_id_field schema f_start f_end
              f_payload iterable Hs He Hp ∅) as (m & -> & Hm).
  eexists. split; [reflexivity|]. intros video_id.
  unfold collection_of_tuples. rewrite lookup_fmap, Hm, lookup_empty.
  by destruct (tuples_of _ _ _ _ _ _ _).
Qed.

(** X15.  [from_iterable] groups the rows by video id.  Under a schema that
    names the start, end and payload fields it returns a collection in
    which a video id is present exactly when some row carries it, and the
    interval list of a video is built from the [(start, end, payload)]
    tuples of its rows, in the order of the iterable. *)
Theorem from_iterable_groups (video_id_field : string)
    (schema : gmap string string) (f_start f_end f_payload : string)
    (iterable : list R) :
  schema !! "start" = Some f_start →
  schema !! "end" = Some f_end →
  schema !! "payload" = Some f_payload →
  ∃ intervals,
    from_iterable IntervalList accessor iterable video_id_field schema
      = inr intervals ∧
    ∀ video_id,
      intervals !! video_id =
        match tuples_of accessor video_id_field f_start f_end f_payload
                video_id iterable with
        | [] => None
        | tuples => Some (IntervalList tuples)
        end.
Proof. apply from_iterable_groups_aux. Qed.


(** X17.  [from_spark_df] and [from_django_qs] without a schema read the
    fields [min_frame], [max_frame] and [id]: they never fail on the schema
    and group the rows by video id exactly as [from_iterable] does with
    these three fields. *)
Theorem from_rows_default (video_id_field : string) (rows : list R) :
  ∃ intervals,
    from_rows IntervalList accessor rows video_id_field None = inr intervals ∧
    ∀ video_id,
      intervals !! video_id =
        match tuples_of accessor video_id_field "min_frame" "max_frame" "id"
                video_id rows with
        | [] => None
        | tuples => Some (IntervalList tuples)
        end.
Proof. unfold from_rows. by apply from_iterable_groups_aux. Qed.

End VideoIntervalCollectionFacts.

Lemma from_iterable_groups_witness :
  ∃ intervals,
    from_iterable (λ tuples : list (Z * Z * Z), tuples) row_field three_rows
      "video_id" default_schema = inr intervals ∧
    ∀ video_id,
      intervals !! video_id =
        match tuples_of row_field "video_id" "min_frame" "max_frame" "id"
                video_id three_rows with
        | [] => None
        | tuples => Some tuples
        end.
Proof.
  exact (from_iterable_groups (Z * Z * Z * Z) (list (Z * Z * Z))
           (λ tuples, tuples) row_field "video_id" default_schema
           "min_frame" "max_frame" "id" three_rows eq_refl eq_refl eq_refl).
Defined.

